(** * Move-selection strategies of [homemade.py]

    A shallow embedding of the five engines of [homemade.py] ([Sciasa],
    [RandomMove], [Alphabetical], [FirstMove], [ComboEngine]) and the
    properties of their [search] methods.

    The rules engine (the [chess] package) is not part of the repository:
    it is consumed through the interface [ChessRules] below.  Python
    objects that the engines share with their caller ([chess.Board]
    instances, the [root_moves] list) live in an explicit heap, so that
    copies, in-place updates and aliasing are visible in the model. *)

From Stdlib Require Import ZArith QArith Lia String Ascii Sorted.
From stdpp Require Import base list.

Local Open Scope string_scope.
Local Open Scope list_scope.
Local Open Scope Z_scope.

(** ** Python values the engines look at *)

(** [chess.PAWN .. chess.KING] are the integers 1..6. *)
Inductive PieceType := PAWN | KNIGHT | BISHOP | ROOK | QUEEN | KING.

(** [chess.WHITE] is [True] and [chess.BLACK] is [False]. *)
Definition Color := bool.
Definition WHITE : Color := true.
Definition BLACK : Color := false.

(** Squares are the integers 0..63 ([a1] = 0, [h8] = 63). *)
Definition Square := nat.

(** Exceptions the engines can let escape. *)
Inductive exn := IndexError | TypeError.

(** The result of running a piece of Python: a value, an exception, or
    the model's recursion budget exhausted. *)
Inductive outcome (A : Type) :=
| Ok (a : A)
| Raise (e : exn)
| OutOfFuel.
Arguments Ok {A} a.
Arguments Raise {A} e.
Arguments OutOfFuel {A}.


(** A number that is either a Python [int] or one of [float('-inf')],
    [float('inf')]: the type of [best_evaluation]. *)
Inductive ExtZ := NegInf | Fin (z : Z) | PosInf.

(** [a > b] on an [int] and a [best_evaluation]. *)
Definition gt_ext (a : Z) (b : ExtZ) : bool :=
  match b with
  | NegInf => true
  | Fin z => z <? a
  | PosInf => false
  end.

(** [a < b] on an [int] and a [best_evaluation]. *)
Definition lt_ext (a : Z) (b : ExtZ) : bool :=
  match b with
  | NegInf => false
  | Fin z => a <? z
  | PosInf => true
  end.

(** An extra positional argument of [Sciasa.search]: only whether it is
    an [int], and which, is ever inspected. *)
Inductive Arg := AInt (z : Z) | AOther.

(** A field of [chess.engine.Limit]: [isinstance(x, int)] is the only
    test made on it, so a field is an [int] or anything else ([None], a
    [float]). *)
Inductive Field := FInt (z : Z) | FOther.

Record Limit := mkLimit {
  time : Field;
  white_clock : Field;
  white_inc : Field;
  black_clock : Field;
  black_inc : Field
}.

(** ** The rules engine *)

(** What the engines use of a [chess.Board]'s current position and of
    [chess.Move].  [pieces p pt c] is the square set
    [board.pieces(pt, c)], [uci m] is [str(m)], [san p m] is
    [board.san(m)]. *)
Class ChessRules (Pos Move : Type) := {
  turn : Pos -> Color;
  legal_moves : Pos -> list Move;
  apply_move : Pos -> Move -> Pos;
  pieces : Pos -> PieceType -> Color -> list Square;
  uci : Move -> string;
  san : Pos -> Move -> string
}.

(** ** Stable sorting by a string key *)

(** [list.sort(key=...)] is a stable sort and Python compares [str]
    values code point by code point; on the ASCII strings of move
    notation that is [String.leb].  The result of a stable sort does not
    depend on the algorithm, so insertion sort stands for it. *)
Section Sorting.
Context {A : Type} (key : A -> string).

Fixpoint insert_by (x : A) (l : list A) : list A :=
  match l with
  | [] => [x]
  | y :: l' =>
      if String.leb (key x) (key y) then x :: y :: l'
      else y :: insert_by x l'
  end.

Fixpoint sort_by (l : list A) : list A :=
  match l with
  | [] => []
  | x :: l' => insert_by x (sort_by l')
  end.

(** [key(x) <= key(y)] *)
Definition key_le (x y : A) : Prop := String.leb (key x) (key y) = true.
End Sorting.

(** ** Engines *)

Section Engines.
Context {Pos Move : Type} `{Rules : ChessRules Pos Move}.

(** A [chess.Board] object: the current position and the stack that
    [push] grows and [pop] shrinks (the move played and the state to
    restore). *)
Record Board := mkBoard {
  position : Pos;
  stack : list (Pos * Move)
}.

Definition push_board (b : Board) (m : Move) : Board :=
  mkBoard (apply_move (position b) m) ((position b, m) :: stack b).

Definition pop_board (b : Board) : option Board :=
  match stack b with
  | [] => None
  | (p, _) :: s => Some (mkBoard p s)
  end.

(** Heap objects: boards and lists of moves. *)
Inductive Obj :=
| OBoard (b : Board)
| OList (l : list Move).

Definition loc := nat.

(** The state a call runs in: the heap of shared objects and the tape
    of the process-wide random source. *)
Record State := mkState {
  heap : list Obj;
  rng : list nat
}.

Definition M (A : Type) : Type := State -> outcome A * State.

Definition ret {A} (a : A) : M A := fun s => (Ok a, s).

Definition raise {A} (e : exn) : M A := fun s => (Raise e, s).

Definition bind {A B} (m : M A) (k : A -> M B) : M B :=
  fun s =>
    match m s with
    | (Ok a, s') => k a s'
    | (Raise e, s') => (Raise e, s')
    | (OutOfFuel, s') => (OutOfFuel, s')
    end.

Notation "x <- c1 ;; c2" := (bind c1 (fun x => c2))
  (at level 100, c1 at next level, right associativity).
Notation "c1 ;;; c2" := (bind c1 (fun _ => c2))
  (at level 100, right associativity).

(** *** Heap primitives *)

Definition read_board (r : loc) : M Board :=
  fun s =>
    match heap s !! r with
    | Some (OBoard b) => (Ok b, s)
    | _ => (Raise TypeError, s)
    end.

Definition write_board (r : loc) (b : Board) : M unit :=
  fun s => (Ok tt, mkState (<[r := OBoard b]> (heap s)) (rng s)).

Definition alloc (o : Obj) : M loc :=
  fun s => (Ok (length (heap s)), mkState (heap s ++ [o]) (rng s)).

Definition read_list (r : loc) : M (list Move) :=
  fun s =>
    match heap s !! r with
    | Some (OList l) => (Ok l, s)
    | _ => (Raise TypeError, s)
    end.

Definition write_list (r : loc) (l : list Move) : M unit :=
  fun s => (Ok tt, mkState (<[r := OList l]> (heap s)) (rng s)).

(** *** [chess.Board] methods *)

(** [board.copy()] *)
Definition board_copy (r : loc) : M loc :=
  b <- read_board r ;; alloc (OBoard b).

(** [board.push(move)] *)
Definition board_push (r : loc) (m : Move) : M unit :=
  b <- read_board r ;; write_board r (push_board b m).

(** [board.pop()] *)
Definition board_pop (r : loc) : M unit :=
  b <- read_board r ;;
  match pop_board b with
  | Some b' => write_board r b'
  | None => raise IndexError
  end.

(** [board.turn] *)
Definition board_turn (r : loc) : M Color :=
  b <- read_board r ;; ret (turn (position b)).

(** [board.legal_moves], enumerated *)
Definition board_legal_moves (r : loc) : M (list Move) :=
  b <- read_board r ;; ret (legal_moves (position b)).

(** [len(board.pieces(piece_type, color))] *)
Definition board_count (r : loc) (pt : PieceType) (c : Color) : M Z :=
  b <- read_board r ;; ret (Z.of_nat (length (pieces (position b) pt c))).

(** [chess.engine.PlayResult]: the fields the engines set. *)
Record PlayResult := mkPlayResult {
  move : option Move;
  ponder : option Move;
  draw_offered : bool
}.

(** *** [Sciasa] *)

(** The dict [piece_values], in insertion order. *)
Definition piece_values : list (PieceType * Z) :=
  [(PAWN, 1); (KNIGHT, 3); (BISHOP, 3); (ROOK, 5); (QUEEN, 9)].

(** The body of [for piece_type in piece_values], threading [score]. *)
Fixpoint evaluate_loop (board : loc) (items : list (PieceType * Z))
    (score : Z) : M Z :=
  match items with
  | [] => ret score
  | (piece_type, value) :: items' =>
      w <- board_count board piece_type WHITE ;;
      let score := score + w * value in
      b <- board_count board piece_type BLACK ;;
      let score := score - b * value in
      evaluate_loop board items' score
  end.

Definition evaluate_board (board : loc) : M Z :=
  evaluate_loop board piece_values 0.

(** A queue item: (board, depth, move leading to this state). *)
Definition QueueItem : Type := loc * Z * option Move.

(** [for move in current_board.legal_moves:] push the move, append a
    copy of the board to the queue, pop the move.  The generator is
    resumed only after [pop] has restored the board, so it yields the
    moves of the position the loop started from. *)
Fixpoint expand (current_board : loc) (current_depth : Z)
    (moves : list Move) (queue : list QueueItem) : M (list QueueItem) :=
  match moves with
  | [] => ret queue
  | move :: moves' =>
      board_push current_board move ;;;
      c <- board_copy current_board ;;
      let queue := queue ++ [(c, current_depth + 1, Some move)] in
      board_pop current_board ;;;
      expand current_board current_depth moves' queue
  end.

(** [while queue:], one unit of [fuel] per iteration. *)
Fixpoint bfs (fuel : nat) (board : loc) (depth : Z)
    (queue : list QueueItem) (best_move : option Move)
    (best_evaluation : ExtZ) : M (option Move) :=
  match fuel with
  | O => fun s => (OutOfFuel, s)
  | S fuel' =>
      match queue with
      | [] => ret best_move
      | (current_board, current_depth, leading_move) :: queue =>
          if depth <=? current_depth then
            evaluation <- evaluate_board current_board ;;
            t <- board_turn board ;;
            if t then
              if gt_ext evaluation best_evaluation then
                bfs fuel' board depth queue leading_move (Fin evaluation)
              else bfs fuel' board depth queue best_move best_evaluation
            else
              if lt_ext evaluation best_evaluation then
                bfs fuel' board depth queue leading_move (Fin evaluation)
              else bfs fuel' board depth queue best_move best_evaluation
          else
            moves <- board_legal_moves current_board ;;
            queue <- expand current_board current_depth moves queue ;;
            bfs fuel' board depth queue best_move best_evaluation
      end
  end.

(** The number of nodes of the move tree below [p], [k] plies deep. *)
Fixpoint tree_size (k : nat) (p : Pos) : nat :=
  match k with
  | O => 1%nat
  | S k' =>
      S (sum_list_with (fun m => tree_size k' (apply_move p m))
                       (legal_moves p))
  end.

(** Iterations the loop is allowed: one per node, one to see the queue
    empty. *)
Definition search_fuel (depth : Z) (p : Pos) : nat :=
  S (tree_size (Z.to_nat depth) p).

(** [depth = 2], replaced by [args[0]] when there is one and it is an
    [int]. *)
Definition depth_of (args : list Arg) : Z :=
  match args with
  | AInt z :: _ => z
  | _ => 2
  end.

(** [Sciasa.search].  The read of the board before the loop is the
    model's: it fixes the loop's budget, which [Sciasa_search_ok] shows
    is never used up. *)
Definition Sciasa_search (board : loc) (args : list Arg) : M PlayResult :=
  let depth := depth_of args in
  c <- board_copy board ;;
  let queue := [(c, 0, None)] in
  let best_move := None in
  t <- board_turn board ;;
  let best_evaluation := if t then NegInf else PosInf in
  b <- read_board board ;;
  best_move <- bfs (search_fuel depth (position b)) board depth queue
                   best_move best_evaluation ;;
  ret (mkPlayResult best_move None false).

(** *** [random.choice] and indexing *)

(** [random._randbelow(n)]: the next number of the tape, reduced to an
    index below [n]. *)
Definition randbelow (n : nat) (tape : list nat) : nat * list nat :=
  match tape with
  | [] => (0%nat, [])
  | r :: tape' => (r mod n, tape')%nat
  end.

(** [random.choice(seq)] *)
Definition random_choice {A} (seq : list A) : M A :=
  fun s =>
    match seq with
    | [] => (Raise IndexError, s)
    | _ =>
        let (i, tape) := randbelow (length seq) (rng s) in
        match seq !! i with
        | Some x => (Ok x, mkState (heap s) tape)
        | None => (Raise IndexError, mkState (heap s) tape)
        end
    end.

(** [seq[0]] *)
Definition index0 {A} (seq : list A) : M A :=
  match seq with
  | [] => raise IndexError
  | x :: _ => ret x
  end.

(** *** [RandomMove], [Alphabetical], [FirstMove] *)

Definition RandomMove_search (board : loc) (args : list Arg)
    : M PlayResult :=
  moves <- board_legal_moves board ;;
  m <- random_choice moves ;;
  ret (mkPlayResult (Some m) None false).

Definition Alphabetical_search (board : loc) (args : list Arg)
    : M PlayResult :=
  moves <- board_legal_moves board ;;
  b <- read_board board ;;
  let moves := sort_by (san (position b)) moves in
  m <- index0 moves ;;
  ret (mkPlayResult (Some m) None false).

Definition FirstMove_search (board : loc) (args : list Arg)
    : M PlayResult :=
  moves <- board_legal_moves board ;;
  let moves := sort_by uci moves in
  m <- index0 moves ;;
  ret (mkPlayResult (Some m) None false).

(** *** [ComboEngine] *)

(** The [root_moves] argument: a reference to a list object, or a
    value that is not a list. *)
Inductive RootMoves := RList (r : loc) | RNotList.

Definition int_or_zero (f : Field) : Z :=
  match f with FInt z => z | FOther => 0 end.

(** [my_time / 60 + my_inc > 10], the true division in exact rational
    arithmetic.  On clock values below 2^31 in absolute value the
    binary64 computation gives the same answer: an exact value above
    10 is at least 10 + 1/60, an exact value of 10 is computed
    exactly. *)
Definition generous (my_time my_inc : Z) : bool :=
  negb (Qle_bool (Qplus (Qdiv (inject_Z my_time) (inject_Z 60))
                        (inject_Z my_inc))
                 (inject_Z 10)).

(** [possible_moves.sort(key=str)], in place. *)
Definition list_sort_str (r : loc) : M unit :=
  l <- read_list r ;; write_list r (sort_by uci l).

(** [my_time] and [my_inc], from the clock of the side to move. *)
Definition my_clock (board : loc) (time_limit : Limit) : M (Z * Z) :=
  match time time_limit with
  | FInt my_time => ret (my_time, 0)
  | FOther =>
      t <- board_turn board ;;
      if t then
        ret (int_or_zero (white_clock time_limit),
             int_or_zero (white_inc time_limit))
      else
        ret (int_or_zero (black_clock time_limit),
             int_or_zero (black_inc time_limit))
  end.

(** [possible_moves]: the caller's list object itself, or a new list
    of the legal moves. *)
Definition possible_moves_of (board : loc) (root_moves : RootMoves)
    : M loc :=
  match root_moves with
  | RList r => ret r
  | RNotList =>
      moves <- board_legal_moves board ;;
      alloc (OList moves)
  end.

Definition ComboEngine_search (board : loc) (time_limit : Limit)
    (ponder draw_offered : bool) (root_moves : RootMoves)
    : M PlayResult :=
  clock <- my_clock board time_limit ;;
  let '(my_time, my_inc) := clock in
  possible_moves <- possible_moves_of board root_moves ;;
  move <- (if generous my_time my_inc then
             seq <- read_list possible_moves ;;
             random_choice seq
           else
             list_sort_str possible_moves ;;;
             seq <- read_list possible_moves ;;
             index0 seq) ;;
  ret (mkPlayResult (Some move) None draw_offered).

(** The number of pieces of type [pt] that colour [c] has in [p]. *)
Definition count (p : Pos) (pt : PieceType) (c : Color) : Z :=
  Z.of_nat (length (pieces p pt c)).

(** The material balance, written out: for each entry of the
    piece-value table, White's count minus Black's count, times the
    value. *)
Definition material_balance (p : Pos) : Z :=
  (count p PAWN WHITE - count p PAWN BLACK) * 1
  + (count p KNIGHT WHITE - count p KNIGHT BLACK) * 3
  + (count p BISHOP WHITE - count p BISHOP BLACK) * 3
  + (count p ROOK WHITE - count p ROOK BLACK) * 5
  + (count p QUEEN WHITE - count p QUEEN BLACK) * 9.

(** *** Bookkeeping for the search loop *)

(** The queue items that expanding a node at depth [d] appends, the
    first copy being allocated at address [base]. *)
Fixpoint new_items (base : nat) (d : Z) (moves : list Move)
    : list QueueItem :=
  match moves with
  | [] => []
  | m :: moves' => (base, d + 1, Some m) :: new_items (S base) d moves'
  end.

(** Iterations still owed to a queue item: the size of the tree below
    its board down to the target depth. *)
Definition item_size (depth : Z) (h : list Obj) (it : QueueItem) : nat :=
  match h !! it.1.1 with
  | Some (OBoard b) => tree_size (Z.to_nat (depth - it.1.2)) (position b)
  | _ => 0%nat
  end.

Definition queue_size (depth : Z) (h : list Obj) (q : list QueueItem)
    : nat :=
  sum_list_with (item_size depth h) q.

(** The leading moves that reach the frontier [k] plies below a node
    at position [p] whose own leading-move field is [lm]: what the loop
    does, each queued child carrying the move that was just played. *)
Fixpoint leaf_moves (k : nat) (p : Pos) (lm : option Move)
    : list (option Move) :=
  match k with
  | O => [lm]
  | S k' =>
      legal_moves p ≫= (fun m => leaf_moves k' (apply_move p m) (Some m))
  end.

Definition item_leaves (depth : Z) (h : list Obj) (it : QueueItem)
    : list (option Move) :=
  match h !! it.1.1 with
  | Some (OBoard b) =>
      leaf_moves (Z.to_nat (depth - it.1.2)) (position b) it.2
  | _ => []
  end.

Definition queue_leaves (depth : Z) (h : list Obj) (q : list QueueItem)
    : list (option Move) :=
  q ≫= item_leaves depth h.

(** Every queue item refers to a board of the heap. *)
Definition queue_ok (h : list Obj) (q : list QueueItem) : Prop :=
  Forall (fun it : QueueItem => exists b, h !! it.1.1 = Some (OBoard b)) q.

(** *** Bookkeeping for [ComboEngine] *)

(** [my_time] and [my_inc] as a function of the limit and the side to
    move. *)
Definition clock_of (time_limit : Limit) (t : Color) : Z * Z :=
  match time time_limit with
  | FInt my_time => (my_time, 0)
  | FOther =>
      if t then (int_or_zero (white_clock time_limit),
                 int_or_zero (white_inc time_limit))
      else (int_or_zero (black_clock time_limit),
            int_or_zero (black_inc time_limit))
  end.

(** The moves [ComboEngine.search] chooses among, read off the state
    the call starts in. *)
Definition candidates (s : State) (b : Board) (root_moves : RootMoves)
    : list Move :=
  match root_moves with
  | RList r =>
      match heap s !! r with
      | Some (OList l) => l
      | _ => []
      end
  | RNotList => legal_moves (position b)
  end.

(** A [root_moves] that is a list refers to a list object. *)
Definition root_moves_ok (s : State) (root_moves : RootMoves) : Prop :=
  match root_moves with
  | RList r => exists l, heap s !! r = Some (OList l)
  | RNotList => True
  end.

(** *** The frontier and the choice made on it *)

(** The nodes [k] plies below a node at position [p] whose leading-move
    field is [lm], each with the field the loop gives it, in the order
    the loop evaluates them. *)
Fixpoint frontier (k : nat) (p : Pos) (lm : option Move)
    : list (Pos * option Move) :=
  match k with
  | O => [(p, lm)]
  | S k' =>
      legal_moves p ≫= (fun m => frontier k' (apply_move p m) (Some m))
  end.

Definition item_frontier (depth : Z) (h : list Obj) (it : QueueItem)
    : list (Pos * option Move) :=
  match h !! it.1.1 with
  | Some (OBoard b) =>
      frontier (Z.to_nat (depth - it.1.2)) (position b) it.2
  | _ => []
  end.

Definition queue_frontier (depth : Z) (h : list Obj) (q : list QueueItem)
    : list (Pos * option Move) :=
  q ≫= item_frontier depth h.

(** The test that guards the update of [best_move]: [evaluation >
    best_evaluation] when White is to move at the root, [evaluation <
    best_evaluation] when Black is. *)
Definition better (white : bool) (evaluation : Z) (best : ExtZ) : bool :=
  if white then gt_ext evaluation best else lt_ext evaluation best.

(** [best_move] and [best_evaluation] after the nodes have been
    evaluated in order. *)
Fixpoint choose (white : bool) (nodes : list (Pos * option Move))
    (best_move : option Move) (best_evaluation : ExtZ)
    : option Move * ExtZ :=
  match nodes with
  | [] => (best_move, best_evaluation)
  | (p, lm) :: nodes' =>
      if better white (material_balance p) best_evaluation then
        choose white nodes' lm (Fin (material_balance p))
      else choose white nodes' best_move best_evaluation
  end.

(** An evaluation seen from one side: itself for White, negated for
    Black, so that more is better for that side. *)
Definition side_score (white : bool) (z : Z) : Z := if white then z else - z.

(** [float('-inf')] for White, [float('inf')] for Black. *)
Definition worst (white : bool) : ExtZ := if white then NegInf else PosInf.

(** The value of a piece type in [piece_values]; the king is not a key
    of the dict and weighs nothing. *)
Definition piece_value (pt : PieceType) : Z :=
  match pt with
  | PAWN => 1
  | KNIGHT => 3
  | BISHOP => 3
  | ROOK => 5
  | QUEEN => 9
  | KING => 0
  end.

End Engines.

Arguments Board : clear implicits.
Arguments Obj : clear implicits.
Arguments State : clear implicits.
Arguments M : clear implicits.
Arguments PlayResult : clear implicits.
Arguments QueueItem : clear implicits.

(** ** Positions as finite move trees *)

(** A concrete rules engine for closed examples: a position is given by
    the side to move, the piece placement and, for each legal move in
    generation order, its long and short notation and the position it
    leads to.  A position on the horizon of the search that is run on
    the tree lists no moves: the search evaluates it and never
    enumerates its moves. *)
Module Tree.
Local Open Scope nat_scope.

#[warnings="-register-all"]
Inductive GamePos :=
| Position (to_move : Color)
           (placement : list (Square * (Color * PieceType)))
           (moves : list (string * string * GamePos)).

Definition piece_type_eqb (a b : PieceType) : bool :=
  match a, b with
  | PAWN, PAWN | KNIGHT, KNIGHT | BISHOP, BISHOP
  | ROOK, ROOK | QUEEN, QUEEN | KING, KING => true
  | _, _ => false
  end.

Definition to_move (p : GamePos) : Color :=
  let 'Position t _ _ := p in t.

Definition placement (p : GamePos) : list (Square * (Color * PieceType)) :=
  let 'Position _ pl _ := p in pl.

Definition moves (p : GamePos) : list (string * string * GamePos) :=
  let 'Position _ _ ms := p in ms.

Definition squares_of (p : GamePos) (pt : PieceType) (c : Color)
    : list Square :=
  map fst
      (filter (fun e => Is_true (Bool.eqb (fst (snd e)) c
                                 && piece_type_eqb (snd (snd e)) pt))
              (placement p)).

Fixpoint lookup_move (m : string) (ms : list (string * string * GamePos))
    : option (string * GamePos) :=
  match ms with
  | [] => None
  | (u, s, p) :: ms' =>
      if String.eqb m u then Some (s, p) else lookup_move m ms'
  end.

Definition play (p : GamePos) (m : string) : GamePos :=
  match lookup_move m (moves p) with
  | Some (_, p') => p'
  | None => p
  end.

Definition short_form (p : GamePos) (m : string) : string :=
  match lookup_move m (moves p) with
  | Some (s, _) => s
  | None => m
  end.

#[export] Instance rules : ChessRules GamePos string := {|
  turn := to_move;
  legal_moves := fun p => map (fun e => fst (fst e)) (moves p);
  apply_move := play;
  pieces := squares_of;
  uci := fun m => m;
  san := short_form
|}.

(** A fresh board object set up at position [p]. *)
Definition board_at (p : GamePos) : Obj GamePos string := OBoard (mkBoard p []).

(** *** King and pawn ending, FEN [8/7p/8/8/8/8/2k5/K7 w - - 0 1] *)

(** White: Ka1.  Black: Kc2, pawn h7.  White's only legal move is
    [a1a2]; Black then has five king moves and two pawn moves. *)
Definition kp_leaf (black_king black_pawn : Square) : GamePos :=
  Position WHITE
    [(8, (WHITE, KING)); (black_king, (BLACK, KING));
     (black_pawn, (BLACK, PAWN))]
    [].

Definition kp_after_a1a2 : GamePos :=
  Position BLACK
    [(8, (WHITE, KING)); (10, (BLACK, KING));
     (55, (BLACK, PAWN))]
    [("c2d3", "Kd3", kp_leaf 19 55);
     ("c2c3", "Kc3", kp_leaf 18 55);
     ("c2d2", "Kd2", kp_leaf 11 55);
     ("c2d1", "Kd1", kp_leaf 3 55);
     ("c2c1", "Kc1", kp_leaf 2 55);
     ("h7h6", "h6", kp_leaf 10 47);
     ("h7h5", "h5", kp_leaf 10 39)].

Definition kp_root : GamePos :=
  Position WHITE
    [(0, (WHITE, KING)); (10, (BLACK, KING));
     (55, (BLACK, PAWN))]
    [("a1a2", "Ka2", kp_after_a1a2)].

(** *** Forced stalemate, FEN [k7/P7/Kq6/8/8/8/8/8 w - - 0 1] *)

(** White: Ka6, pawn a7.  Black: Ka8, Qb6, giving check.  White's only
    legal move is [a6b6], after which Black, to move and not in check,
    has no legal move. *)
Definition stalemate_after_a6b6 : GamePos :=
  Position BLACK
    [(41, (WHITE, KING)); (48, (WHITE, PAWN));
     (56, (BLACK, KING))]
    [].

Definition stalemate_root : GamePos :=
  Position WHITE
    [(40, (WHITE, KING)); (48, (WHITE, PAWN));
     (56, (BLACK, KING)); (41, (BLACK, QUEEN))]
    [("a6b6", "Kxb6", stalemate_after_a6b6)].

(** *** States and clocks of the examples *)

(** A heap holding one new board set up at [p], and an exhausted
    random tape. *)
Definition fresh (p : GamePos) : State GamePos string :=
  mkState [board_at p] [].

(** The state of the default-depth search from [kp_root] once the root
    has been expanded: the caller's board, the root copy, and the copy
    made after [a1a2], which is the one queued item, at depth 1 with
    leading move [a1a2]. *)
Definition kp_first_ply : State GamePos string :=
  mkState [board_at kp_root; board_at kp_root;
           OBoard (push_board (mkBoard kp_root []) "a1a2")] [].

(** Black to move after [a1a2], the caller restricting the root moves
    to a list that is not in sorted order; the random tape holds 4. *)
Definition restricted : State GamePos string :=
  mkState [board_at kp_after_a1a2; OList ["h7h5"; "c2d3"; "c2c1"]] [4].

(** [Limit(time=300)] and [Limit(time=700)]: [my_inc] is 0. *)
Definition limit_300 : Limit := mkLimit (FInt 300) FOther FOther FOther FOther.

(** *** Further positions and states *)

(** The stalemate with colours reversed, FEN
    [8/8/8/8/8/1k6/p7/K7 w - - 0 1].  White: Ka1.  Black: Kb3, pawn a2.
    White, to move and not in check, has no legal move. *)
Definition stalemate_mirrored : GamePos :=
  Position WHITE
    [(0, (WHITE, KING)); (8, (BLACK, PAWN)); (17, (BLACK, KING))]
    [].

(** Black to move after [a1a2], with two numbers on the random tape. *)
Definition with_tape : State GamePos string :=
  mkState [board_at kp_after_a1a2] [12; 3].

(** Two boards with Black to move, the second stalemated, and a list of
    root moves. *)
Definition two_boards : State GamePos string :=
  mkState [board_at kp_after_a1a2; board_at stalemate_after_a6b6;
           OList ["h7h5"; "c2d3"; "c2c1"]] [4].

Definition limit_black_900 : Limit :=
  mkLimit FOther (FInt 5) FOther (FInt 900) (FInt 2).
Definition limit_black_900' : Limit :=
  mkLimit FOther (FInt 3000) (FInt 30) (FInt 900) (FInt 2).

End Tree.

(** * Properties *)

(** ** The order on notation strings *)

Lemma ascii_compare_spec (a b : ascii) :
  CompareSpec (a = b) (N_of_ascii a < N_of_ascii b)%N
              (N_of_ascii b < N_of_ascii a)%N (Ascii.compare a b).
Proof.
  unfold Ascii.compare.
  destruct (N.compare_spec (N_of_ascii a) (N_of_ascii b)) as [E|L|G];
    constructor; try assumption.
  rewrite <- (ascii_N_embedding a), <- (ascii_N_embedding b).
  now rewrite E.
Qed.

Lemma string_leb_refl (a : string) : String.leb a a = true.
Proof.
  unfold String.leb.
  induction a as [|c a IH]; simpl; [reflexivity|].
  destruct (ascii_compare_spec c c); try lia. exact IH.
Qed.

Lemma string_leb_trans (a b c : string) :
  String.leb a b = true -> String.leb b c = true -> String.leb a c = true.
Proof.
  unfold String.leb. revert b c.
  induction a as [|x a IH]; intros [|y b] [|z c]; simpl;
    try reflexivity; try discriminate.
  destruct (ascii_compare_spec x y) as [Exy|Hxy|Hxy];
    destruct (ascii_compare_spec y z) as [Eyz|Hyz|Hyz];
    try discriminate; intros Hab Hbc;
    destruct (ascii_compare_spec x z) as [Exz|Hxz|Hxz];
    subst; try reflexivity; try lia.
  now apply IH with b.
Qed.

Lemma string_leb_false (a b : string) :
  String.leb a b = false -> String.leb b a = true.
Proof.
  intros H. destruct (String.leb_total a b) as [E|E]; congruence.
Qed.

(** ** The stable sort *)

Section SortingFacts.
Context {A : Type} (key : A -> string).

Lemma insert_by_perm (x : A) (l : list A) :
  insert_by key x l ≡ₚ x :: l.
Proof.
  induction l as [|y l IH]; simpl; [reflexivity|].
  destruct (String.leb (key x) (key y)); [reflexivity|].
  rewrite IH. apply Permutation_swap.
Qed.

(** The sorted list has the elements of the list it was made from. *)
Lemma sort_by_perm (l : list A) : sort_by key l ≡ₚ l.
Proof.
  induction l as [|x l IH]; simpl; [reflexivity|].
  now rewrite insert_by_perm, IH.
Qed.

Lemma insert_by_sorted (x : A) (l : list A) :
  StronglySorted (key_le key) l -> StronglySorted (key_le key) (insert_by key x l).
Proof.
  induction 1 as [|y l Hs IH Hy]; simpl.
  - repeat constructor.
  - destruct (String.leb (key x) (key y)) eqn:E.
    + constructor; [now constructor|].
      constructor; [exact E|].
      eapply Forall_impl; [exact Hy|].
      intros z Hz. exact (string_leb_trans _ _ _ E Hz).
    + constructor; [exact IH|].
      rewrite insert_by_perm. constructor; [|exact Hy].
      now apply string_leb_false.
Qed.

(** The sorted list is in non-decreasing key order. *)
Lemma sort_by_sorted (l : list A) : StronglySorted (key_le key) (sort_by key l).
Proof.
  induction l as [|x l IH]; simpl; [constructor|].
  now apply insert_by_sorted.
Qed.

Lemma sort_by_nil (l : list A) : sort_by key l = [] <-> l = [].
Proof.
  split; [|now intros ->].
  intros H. apply Permutation_nil_r. now rewrite <- H, sort_by_perm.
Qed.

(** Element 0 of the sorted list is an element of the list with the
    least key. *)
Lemma sort_by_head (l : list A) (x : A) (l' : list A) :
  sort_by key l = x :: l' ->
  x ∈ l /\ (forall y, y ∈ l -> key_le key x y).
Proof.
  intros H. pose proof (sort_by_sorted l) as Hs.
  pose proof (sort_by_perm l) as Hp. rewrite H in Hs, Hp.
  split.
  - rewrite <- Hp. left.
  - intros y Hy. rewrite <- Hp in Hy.
    apply elem_of_cons in Hy as [->|Hy]; [apply string_leb_refl|].
    apply StronglySorted_inv in Hs as [_ Hall].
    rewrite Forall_forall in Hall. now apply Hall.
Qed.

End SortingFacts.

(** ** Running the engines *)

Section EngineFacts.
Context {Pos Move : Type} `{Rules : ChessRules Pos Move}.

Implicit Types (s : State Pos Move) (b : Board Pos Move) (r board : loc).

Lemma bind_ok {A B} (m : M Pos Move A) (k : A -> M Pos Move B) s a s' :
  m s = (Ok a, s') -> bind m k s = k a s'.
Proof. unfold bind. now intros ->. Qed.

Lemma bind_raise {A B} (m : M Pos Move A) (k : A -> M Pos Move B) s e s' :
  m s = (Raise e, s') -> bind m k s = (Raise e, s').
Proof. unfold bind. now intros ->. Qed.

Lemma read_board_ok s r b :
  heap s !! r = Some (OBoard b) -> read_board r s = (Ok b, s).
Proof. unfold read_board. now intros ->. Qed.

Lemma read_list_ok s r (l : list Move) :
  heap s !! r = Some (OList l) -> read_list r s = (Ok l, s).
Proof. unfold read_list. now intros ->. Qed.

Lemma board_turn_ok s r b :
  heap s !! r = Some (OBoard b) ->
  board_turn r s = (Ok (turn (position b)), s).
Proof.
  intros H. unfold board_turn. now rewrite (bind_ok _ _ _ _ _ (read_board_ok _ _ _ H)).
Qed.

Lemma board_legal_moves_ok s r b :
  heap s !! r = Some (OBoard b) ->
  board_legal_moves r s = (Ok (legal_moves (position b)), s).
Proof.
  intros H. unfold board_legal_moves.
  now rewrite (bind_ok _ _ _ _ _ (read_board_ok _ _ _ H)).
Qed.

Lemma board_count_ok s r b pt c :
  heap s !! r = Some (OBoard b) ->
  board_count r pt c s
  = (Ok (Z.of_nat (length (pieces (position b) pt c))), s).
Proof.
  intros H. unfold board_count.
  now rewrite (bind_ok _ _ _ _ _ (read_board_ok _ _ _ H)).
Qed.

(** *** The evaluator *)

Lemma evaluate_loop_ok s r b items score :
  heap s !! r = Some (OBoard b) ->
  evaluate_loop r items score s
  = (Ok (fold_left
           (fun acc '(pt, v) =>
              acc + count (position b) pt WHITE * v
              - count (position b) pt BLACK * v)
           items score), s).
Proof.
  intros H. revert score.
  induction items as [|[pt v] items IH]; intros score; simpl.
  - reflexivity.
  - rewrite (bind_ok _ _ _ _ _ (board_count_ok _ _ _ pt WHITE H)).
    rewrite (bind_ok _ _ _ _ _ (board_count_ok _ _ _ pt BLACK H)).
    apply IH.
Qed.

Lemma evaluate_board_ok s r b :
  heap s !! r = Some (OBoard b) ->
  evaluate_board r s = (Ok (material_balance (position b)), s).
Proof.
  intros H. unfold evaluate_board.
  rewrite (evaluate_loop_ok _ _ _ _ _ H). f_equal. f_equal.
  unfold material_balance. simpl. lia.
Qed.

(** *** Boards on the heap *)

Lemma pop_push b (m : Move) : pop_board (push_board b m) = Some b.
Proof. now destruct b. Qed.

Lemma board_push_ok s r b (m : Move) :
  heap s !! r = Some (OBoard b) ->
  board_push r m s
  = (Ok tt, mkState (<[r := OBoard (push_board b m)]> (heap s)) (rng s)).
Proof.
  intros H. unfold board_push.
  now rewrite (bind_ok _ _ _ _ _ (read_board_ok _ _ _ H)).
Qed.

Lemma board_copy_ok s r b :
  heap s !! r = Some (OBoard b) ->
  board_copy r s
  = (Ok (length (heap s)), mkState (heap s ++ [OBoard b]) (rng s)).
Proof.
  intros H. unfold board_copy.
  now rewrite (bind_ok _ _ _ _ _ (read_board_ok _ _ _ H)).
Qed.

Lemma board_pop_ok s r b b' :
  heap s !! r = Some (OBoard b) -> pop_board b = Some b' ->
  board_pop r s = (Ok tt, mkState (<[r := OBoard b']> (heap s)) (rng s)).
Proof.
  intros H Hp. unfold board_pop.
  rewrite (bind_ok _ _ _ _ _ (read_board_ok _ _ _ H)). now rewrite Hp.
Qed.

(** One turn of the [for] loop leaves the board it pushes and pops as
    it was and adds one object, the copy, at the end of the heap. *)
Lemma push_copy_pop s r b (m : Move) :
  heap s !! r = Some (OBoard b) ->
  (bind (board_push r m) (fun _ =>
   bind (board_copy r) (fun c =>
   bind (board_pop r) (fun _ => ret c)))) s
  = (Ok (length (heap s)),
     mkState (heap s ++ [OBoard (push_board b m)]) (rng s)).
Proof.
  intros H. pose proof (lookup_lt_Some _ _ _ H) as Hlt.
  rewrite (bind_ok _ _ _ _ _ (board_push_ok _ _ _ m H)).
  set (s1 := mkState _ _).
  assert (H1 : heap s1 !! r = Some (OBoard (push_board b m))).
  { simpl. now apply list_lookup_insert_eq. }
  rewrite (bind_ok _ _ _ _ _ (board_copy_ok _ _ _ H1)).
  set (s2 := mkState _ _).
  assert (H2 : heap s2 !! r = Some (OBoard (push_board b m))).
  { simpl. rewrite lookup_app_l; [exact H1|]. simpl.
    now rewrite length_insert. }
  rewrite (bind_ok _ _ _ _ _ (board_pop_ok _ _ _ _ H2 (pop_push b m))).
  unfold ret. simpl. rewrite length_insert. f_equal. f_equal.
  rewrite insert_app_l by now rewrite length_insert.
  rewrite list_insert_insert_eq. now rewrite list_insert_id.
Qed.

Lemma expand_ok s cb b d (moves : list Move) q :
  heap s !! cb = Some (OBoard b) ->
  expand cb d moves q s
  = (Ok (q ++ new_items (length (heap s)) d moves),
     mkState (heap s ++ map (fun m => OBoard (push_board b m)) moves)
             (rng s)).
Proof.
  revert s q.
  induction moves as [|m moves IH]; intros s q H; simpl.
  - unfold ret. rewrite !app_nil_r. now destruct s.
  - pose proof (lookup_lt_Some _ _ _ H) as Hlt.
    rewrite (bind_ok _ _ _ _ _ (board_push_ok _ _ _ m H)).
    set (s1 := mkState _ _).
    assert (H1 : heap s1 !! cb = Some (OBoard (push_board b m))).
    { simpl. now apply list_lookup_insert_eq. }
    rewrite (bind_ok _ _ _ _ _ (board_copy_ok _ _ _ H1)).
    set (s2 := mkState _ _).
    assert (H2 : heap s2 !! cb = Some (OBoard (push_board b m))).
    { simpl. rewrite lookup_app_l; [exact H1|]. simpl.
      now rewrite length_insert. }
    rewrite (bind_ok _ _ _ _ _ (board_pop_ok _ _ _ _ H2 (pop_push b m))).
    set (s3 := mkState _ _).
    assert (E3 : s3 = mkState (heap s ++ [OBoard (push_board b m)]) (rng s)).
    { unfold s3, s2, s1. simpl. f_equal.
      rewrite insert_app_l by now rewrite length_insert.
      rewrite list_insert_insert_eq. now rewrite list_insert_id. }
    rewrite E3. rewrite IH by (simpl; now rewrite lookup_app_l).
    simpl. rewrite length_insert, length_app. simpl.
    rewrite <- !app_assoc. simpl.
    now replace (length (heap s) + 1)%nat with (S (length (heap s))) by lia.
Qed.

(** *** The search loop terminates and only adds to the heap *)

Lemma tree_size_pos k (p : Pos) : (0 < tree_size k p)%nat.
Proof. destruct k; simpl; lia. Qed.

Lemma queue_ok_grow (h ext : list (Obj Pos Move)) q :
  queue_ok h q -> queue_ok (h ++ ext) q.
Proof.
  unfold queue_ok. intros H. eapply Forall_impl; [exact H|].
  intros it [b Hb]. exists b.
  rewrite lookup_app_l; [exact Hb|]. now apply lookup_lt_Some in Hb.
Qed.

Lemma queue_size_grow depth (h ext : list (Obj Pos Move)) q :
  queue_ok h q -> queue_size depth (h ++ ext) q = queue_size depth h q.
Proof.
  unfold queue_size. induction 1 as [|it q [b Hb] _ IH]; simpl.
  - reflexivity.
  - rewrite IH. f_equal. unfold item_size.
    rewrite lookup_app_l; [reflexivity|]. now apply lookup_lt_Some in Hb.
Qed.

Lemma new_items_ok (h : list (Obj Pos Move)) b d (moves : list Move) :
  queue_ok (h ++ map (fun m => OBoard (push_board b m)) moves)
           (new_items (length h) d moves).
Proof.
  revert h. induction moves as [|m moves IH]; intros h; simpl.
  - constructor.
  - constructor.
    + exists (push_board b m). simpl. now apply list_lookup_middle.
    + specialize (IH (h ++ [OBoard (push_board b m)])).
      rewrite length_app, <- app_assoc in IH. simpl in IH.
      now replace (length h + 1)%nat with (S (length h)) in IH by lia.
Qed.

Lemma new_items_size depth (h : list (Obj Pos Move)) b d
    (moves : list Move) :
  queue_size depth (h ++ map (fun m => OBoard (push_board b m)) moves)
             (new_items (length h) d moves)
  = sum_list_with
      (fun m => tree_size (Z.to_nat (depth - (d + 1)))
                          (apply_move (position b) m))
      moves.
Proof.
  unfold queue_size. revert h.
  induction moves as [|m moves IH]; intros h; simpl.
  - reflexivity.
  - f_equal.
    + unfold item_size. simpl.
      now rewrite (list_lookup_middle h _ (OBoard (push_board b m)) (length h) eq_refl).
    + specialize (IH (h ++ [OBoard (push_board b m)])).
      rewrite length_app, <- app_assoc in IH. simpl in IH.
      now replace (length h + 1)%nat with (S (length h)) in IH by lia.
Qed.

Lemma queue_size_cons depth (h : list (Obj Pos Move)) it q :
  queue_size depth h (it :: q)
  = (item_size depth h it + queue_size depth h q)%nat.
Proof. reflexivity. Qed.

Lemma item_size_ok depth (h : list (Obj Pos Move)) cb d
    (lm : option Move) b :
  h !! cb = Some (OBoard b) ->
  item_size depth h (cb, d, lm)
  = tree_size (Z.to_nat (depth - d)) (position b).
Proof. unfold item_size. simpl. now intros ->. Qed.

Lemma queue_leaves_grow depth (h ext : list (Obj Pos Move)) q :
  queue_ok h q -> queue_leaves depth (h ++ ext) q = queue_leaves depth h q.
Proof.
  unfold queue_leaves. induction 1 as [|it q [b Hb] _ IH].
  - reflexivity.
  - rewrite !bind_cons, IH. f_equal. unfold item_leaves.
    rewrite lookup_app_l; [reflexivity|]. now apply lookup_lt_Some in Hb.
Qed.

Lemma new_items_leaves depth (h : list (Obj Pos Move)) b d
    (moves : list Move) :
  queue_leaves depth (h ++ map (fun m => OBoard (push_board b m)) moves)
               (new_items (length h) d moves)
  = moves ≫= (fun m => leaf_moves (Z.to_nat (depth - (d + 1)))
                                  (apply_move (position b) m) (Some m)).
Proof.
  unfold queue_leaves. revert h.
  induction moves as [|m moves IH]; intros h.
  - reflexivity.
  - cbn [new_items map]. rewrite !bind_cons. f_equal.
    + unfold item_leaves. simpl.
      now rewrite (list_lookup_middle h _ (OBoard (push_board b m)) (length h) eq_refl).
    + specialize (IH (h ++ [OBoard (push_board b m)])).
      rewrite length_app, <- app_assoc in IH. simpl in IH.
      now replace (length h + 1)%nat with (S (length h)) in IH by lia.
Qed.

Lemma queue_leaves_app depth (h : list (Obj Pos Move)) q1 q2 :
  queue_leaves depth h (q1 ++ q2)
  = queue_leaves depth h q1 ++ queue_leaves depth h q2.
Proof. unfold queue_leaves. apply bind_app. Qed.

Lemma item_leaves_ok depth (h : list (Obj Pos Move)) cb d
    (lm : option Move) b :
  h !! cb = Some (OBoard b) ->
  item_leaves depth h (cb, d, lm)
  = leaf_moves (Z.to_nat (depth - d)) (position b) lm.
Proof. unfold item_leaves. simpl. now intros ->. Qed.

Lemma bfs_ok fuel board depth b0 :
  forall q bm be s,
    heap s !! board = Some (OBoard b0) ->
    queue_ok (heap s) q ->
    (queue_size depth (heap s) q < fuel)%nat ->
    exists res ext,
      bfs fuel board depth q bm be s
      = (Ok res, mkState (heap s ++ ext) (rng s)) /\
      res ∈ bm :: queue_leaves depth (heap s) q.
Proof.
  induction fuel as [|fuel IH]; intros q bm be s Hb Hq Hsz; [lia|].
  destruct q as [|[[cb d] lm] q].
  - exists bm, []. simpl. unfold ret. rewrite app_nil_r.
    split; [now destruct s|left].
  - apply Forall_cons in Hq as [[b Hcb] Hq].
    rewrite queue_size_cons, (item_size_ok _ _ _ _ _ b Hcb) in Hsz.
    unfold queue_leaves. rewrite bind_cons.
    fold (queue_leaves depth (heap s) q).
    rewrite (item_leaves_ok _ _ _ _ _ b Hcb).
    simpl. destruct (depth <=? d) eqn:Hd.
    + pose proof (tree_size_pos (Z.to_nat (depth - d)) (position b)).
      apply Z.leb_le in Hd.
      replace (Z.to_nat (depth - d)) with O by lia. simpl.
      rewrite (bind_ok _ _ _ _ _ (evaluate_board_ok _ _ _ Hcb)).
      rewrite (bind_ok _ _ _ _ _ (board_turn_ok _ _ _ Hb)).
      assert (Hkeep : exists res ext,
                 bfs fuel board depth q bm be s
                 = (Ok res, mkState (heap s ++ ext) (rng s)) /\
                 res ∈ bm :: lm :: queue_leaves depth (heap s) q).
      { destruct (IH q bm be s Hb Hq) as (res & ext & E & Hin); [lia|].
        exists res, ext. split; [exact E|].
        apply elem_of_cons in Hin as [->|Hin]; [left|now do 2 right]. }
      assert (Htake : forall v, exists res ext,
                 bfs fuel board depth q lm (Fin v) s
                 = (Ok res, mkState (heap s ++ ext) (rng s)) /\
                 res ∈ bm :: lm :: queue_leaves depth (heap s) q).
      { intros v.
        destruct (IH q lm (Fin v) s Hb Hq) as (res & ext & E & Hin); [lia|].
        exists res, ext. split; [exact E|]. now right. }
      destruct (turn (position b0));
        [destruct (gt_ext _ _)|destruct (lt_ext _ _)]; auto.
    + rewrite (bind_ok _ _ _ _ _ (board_legal_moves_ok _ _ _ Hcb)).
      rewrite (bind_ok _ _ _ _ _ (expand_ok _ _ _ d _ q Hcb)).
      set (ext1 := map _ _).
      apply Z.leb_gt in Hd.
      replace (Z.to_nat (depth - d))
        with (S (Z.to_nat (depth - (d + 1)))) in Hsz |- * by lia.
      destruct (IH (q ++ new_items (length (heap s)) d
                                   (legal_moves (position b)))
                   bm be (mkState (heap s ++ ext1) (rng s)))
        as (res & ext & E & Hin).
      * simpl. rewrite lookup_app_l; [exact Hb|].
        now apply lookup_lt_Some in Hb.
      * simpl. apply Forall_app. split.
        -- now apply queue_ok_grow.
        -- apply new_items_ok.
      * simpl. unfold queue_size. rewrite sum_list_with_app.
        fold (queue_size depth (heap s ++ ext1) q).
        rewrite queue_size_grow by exact Hq.
        fold (queue_size depth (heap s ++ ext1)
                (new_items (length (heap s)) d (legal_moves (position b)))).
        unfold ext1. rewrite new_items_size.
        simpl in Hsz. lia.
      * exists res, (ext1 ++ ext). rewrite E. simpl.
        split; [now rewrite app_assoc|].
        cbn [heap] in Hin. rewrite queue_leaves_app in Hin.
        rewrite queue_leaves_grow in Hin by exact Hq.
        unfold ext1 in Hin. rewrite new_items_leaves in Hin.
        rewrite elem_of_cons, elem_of_app in Hin.
        rewrite elem_of_cons, elem_of_app. tauto.
Qed.

(** [Sciasa.search] returns, raises nothing, and leaves every object
    that was on the heap as it was; the move of its result is [None] or
    the leading move of a node of the frontier. *)
Lemma Sciasa_search_ok s board b args :
  heap s !! board = Some (OBoard b) ->
  exists best_move ext,
    Sciasa_search board args s
    = (Ok (mkPlayResult best_move None false),
       mkState (heap s ++ ext) (rng s)) /\
    best_move
    ∈ None :: leaf_moves (Z.to_nat (depth_of args)) (position b) None.
Proof.
  intros H. pose proof (lookup_lt_Some _ _ _ H) as Hlt.
  unfold Sciasa_search. set (depth := depth_of args).
  rewrite (bind_ok _ _ _ _ _ (board_copy_ok _ _ _ H)).
  set (s1 := mkState _ _).
  assert (H1 : heap s1 !! board = Some (OBoard b)).
  { simpl. now rewrite lookup_app_l. }
  assert (Hc : heap s1 !! length (heap s) = Some (OBoard b)).
  { simpl. now apply list_lookup_middle. }
  rewrite (bind_ok _ _ _ _ _ (board_turn_ok _ _ _ H1)).
  rewrite (bind_ok _ _ _ _ _ (read_board_ok _ _ _ H1)).
  destruct (bfs_ok (search_fuel depth (position b)) board depth b
              [(length (heap s), 0, None)] None
              (if turn (position b) then NegInf else PosInf) s1 H1)
    as (res & ext & E & Hin).
  - constructor; [|constructor]. now exists b.
  - rewrite queue_size_cons, (item_size_ok _ _ _ _ _ b Hc).
    unfold queue_size, search_fuel. simpl. rewrite Z.sub_0_r. lia.
  - rewrite (bind_ok _ _ _ _ _ E). unfold ret.
    exists res, ([OBoard b] ++ ext). simpl. split.
    + now rewrite <- app_assoc.
    + unfold queue_leaves in Hin. rewrite bind_cons in Hin.
      rewrite (item_leaves_ok _ _ _ _ _ b Hc), Z.sub_0_r in Hin.
      simpl in Hin. now rewrite app_nil_r in Hin.
Qed.

(** At the default depth the move returned, when there is one, is a
    legal move of a position reached by a legal move of the root: a
    reply. *)
Lemma Sciasa_search_default_move s board b :
  heap s !! board = Some (OBoard b) ->
  exists best_move,
    (Sciasa_search board [] s).1 = Ok (mkPlayResult best_move None false) /\
    (best_move = None \/
     exists m1 m2,
       best_move = Some m2 /\
       m1 ∈ legal_moves (position b) /\
       m2 ∈ legal_moves (apply_move (position b) m1)).
Proof.
  intros H.
  destruct (Sciasa_search_ok s board b [] H) as (bm & ext & E & Hin).
  exists bm. rewrite E. split; [reflexivity|].
  apply elem_of_cons in Hin as [->|Hin]; [now left|right].
  change (Z.to_nat (depth_of [])) with 2%nat in Hin. simpl in Hin.
  apply list_elem_of_bind in Hin as (m1 & Hin & Hm1).
  apply list_elem_of_bind in Hin as (m2 & Hin & Hm2).
  apply list_elem_of_singleton in Hin. now exists m1, m2.
Qed.

(** At depth 1, the depth the comment in [search] names as the default,
    the move returned, when there is one, is a legal move of the
    root. *)
Lemma Sciasa_search_depth_one_move s board b args :
  heap s !! board = Some (OBoard b) ->
  exists best_move,
    (Sciasa_search board (AInt 1 :: args) s).1
    = Ok (mkPlayResult best_move None false) /\
    (best_move = None \/
     exists m, best_move = Some m /\ m ∈ legal_moves (position b)).
Proof.
  intros H.
  destruct (Sciasa_search_ok s board b (AInt 1 :: args) H)
    as (bm & ext & E & Hin).
  exists bm. rewrite E. split; [reflexivity|].
  apply elem_of_cons in Hin as [->|Hin]; [now left|right].
  change (Z.to_nat (depth_of (AInt 1 :: args))) with 1%nat in Hin.
  simpl in Hin.
  apply list_elem_of_bind in Hin as (m & Hin & Hm).
  apply list_elem_of_singleton in Hin. now exists m.
Qed.

(** When every legal move of the root leads to a position without legal
    moves, no node reaches the default depth and the move returned is
    [None]. *)
Lemma Sciasa_search_dead_end s board b :
  heap s !! board = Some (OBoard b) ->
  (forall m, m ∈ legal_moves (position b) ->
             legal_moves (apply_move (position b) m) = []) ->
  (Sciasa_search board [] s).1 = Ok (mkPlayResult None None false).
Proof.
  intros H Hdead.
  destruct (Sciasa_search_default_move s board b H)
    as (bm & E & [->|(m1 & m2 & _ & Hm1 & Hm2)]); [exact E|].
  rewrite (Hdead m1 Hm1) in Hm2. now apply elem_of_nil in Hm2.
Qed.



(** *** [random.choice] and [seq[0]] *)

Lemma randbelow_lt n tape : (0 < n)%nat -> ((randbelow n tape).1 < n)%nat.
Proof.
  intros Hn. destruct tape as [|r tape]; simpl; [exact Hn|].
  apply Nat.mod_upper_bound. lia.
Qed.

Lemma random_choice_nil {A} s :
  random_choice (@nil A) s = (Raise IndexError, s).
Proof. reflexivity. Qed.

(** On a non-empty sequence [random.choice] returns the element at the
    index drawn, and advances the random source. *)
Lemma random_choice_ok {A} (seq : list A) s :
  seq <> [] ->
  exists x,
    seq !! (randbelow (length seq) (rng s)).1 = Some x /\
    random_choice seq s
    = (Ok x, mkState (heap s) (randbelow (length seq) (rng s)).2).
Proof.
  intros Hne.
  assert (Hlen : (0 < length seq)%nat) by (destruct seq; simpl; [congruence|lia]).
  pose proof (randbelow_lt (length seq) (rng s) Hlen) as Hlt.
  destruct (lookup_lt_is_Some_2 seq _ Hlt) as [x Hx].
  exists x. split; [exact Hx|].
  unfold random_choice. destruct seq as [|y seq]; [congruence|].
  destruct (randbelow (length (y :: seq)) (rng s)) as [i tape].
  simpl in Hx |- *. now rewrite Hx.
Qed.

(** The outcome of [random.choice], as one expression. *)
Lemma random_choice_outcome {A} (seq : list A) s :
  (random_choice seq s).1
  = match seq !! (randbelow (length seq) (rng s)).1 with
    | Some x => Ok x
    | None => Raise IndexError
    end.
Proof.
  destruct seq as [|y seq]; [reflexivity|].
  destruct (random_choice_ok (y :: seq) s) as (x & Hx & E); [congruence|].
  now rewrite E, Hx.
Qed.

Lemma index0_outcome {A} (seq : list A) s :
  index0 seq s
  = (match seq with [] => Raise IndexError | x :: _ => Ok x end, s).
Proof. now destruct seq. Qed.

(** *** [RandomMove], [Alphabetical], [FirstMove] run *)

Lemma RandomMove_search_outcome s board b args :
  heap s !! board = Some (OBoard b) ->
  (RandomMove_search board args s).1
  = match legal_moves (position b)
          !! (randbelow (length (legal_moves (position b))) (rng s)).1 with
    | Some m => Ok (mkPlayResult (Some m) None false)
    | None => Raise IndexError
    end /\
  heap (RandomMove_search board args s).2 = heap s.
Proof.
  intros H. unfold RandomMove_search.
  rewrite (bind_ok _ _ _ _ _ (board_legal_moves_ok _ _ _ H)).
  destruct (legal_moves (position b)) as [|m ms] eqn:E.
  - now rewrite (bind_raise _ _ _ _ _ (random_choice_nil s)).
  - destruct (random_choice_ok (m :: ms) s) as (x & Hx & Ex); [congruence|].
    rewrite (bind_ok _ _ _ _ _ Ex). now rewrite Hx.
Qed.

Lemma Alphabetical_search_outcome s board b args :
  heap s !! board = Some (OBoard b) ->
  Alphabetical_search board args s
  = (match sort_by (san (position b)) (legal_moves (position b)) with
     | [] => Raise IndexError
     | m :: _ => Ok (mkPlayResult (Some m) None false)
     end, s).
Proof.
  intros H. unfold Alphabetical_search.
  rewrite (bind_ok _ _ _ _ _ (board_legal_moves_ok _ _ _ H)).
  rewrite (bind_ok _ _ _ _ _ (read_board_ok _ _ _ H)).
  unfold bind. rewrite index0_outcome. now destruct (sort_by _ _).
Qed.

Lemma FirstMove_search_outcome s board b args :
  heap s !! board = Some (OBoard b) ->
  FirstMove_search board args s
  = (match sort_by uci (legal_moves (position b)) with
     | [] => Raise IndexError
     | m :: _ => Ok (mkPlayResult (Some m) None false)
     end, s).
Proof.
  intros H. unfold FirstMove_search.
  rewrite (bind_ok _ _ _ _ _ (board_legal_moves_ok _ _ _ H)).
  unfold bind. rewrite index0_outcome. now destruct (sort_by _ _).
Qed.

(** *** [ComboEngine] runs *)

Lemma my_clock_ok s board b time_limit :
  heap s !! board = Some (OBoard b) ->
  my_clock board time_limit s
  = (Ok (clock_of time_limit (turn (position b))), s).
Proof.
  intros H. unfold my_clock, clock_of.
  destruct (time time_limit); [reflexivity|].
  rewrite (bind_ok _ _ _ _ _ (board_turn_ok _ _ _ H)).
  now destruct (turn (position b)).
Qed.

Lemma possible_moves_of_fresh s board b :
  heap s !! board = Some (OBoard b) ->
  possible_moves_of board RNotList s
  = (Ok (length (heap s)),
     mkState (heap s ++ [OList (legal_moves (position b))]) (rng s)).
Proof.
  intros H. unfold possible_moves_of.
  now rewrite (bind_ok _ _ _ _ _ (board_legal_moves_ok _ _ _ H)).
Qed.

(** Without a list of root moves, the engine runs as if it had been
    given a new list holding the legal moves. *)
Lemma ComboEngine_search_unrestricted s board b time_limit ponder
    draw_offered :
  heap s !! board = Some (OBoard b) ->
  ComboEngine_search board time_limit ponder draw_offered RNotList s
  = ComboEngine_search board time_limit ponder draw_offered
      (RList (length (heap s)))
      (mkState (heap s ++ [OList (legal_moves (position b))]) (rng s)).
Proof.
  intros H. pose proof (lookup_lt_Some _ _ _ H) as Hlt.
  set (s1 := mkState _ _).
  assert (H1 : heap s1 !! board = Some (OBoard b)).
  { simpl. now rewrite lookup_app_l. }
  unfold ComboEngine_search.
  rewrite (bind_ok _ _ _ _ _ (my_clock_ok _ _ _ time_limit H)).
  rewrite (bind_ok _ _ _ _ _ (my_clock_ok _ _ _ time_limit H1)).
  destruct (clock_of _ _) as [my_time my_inc].
  now rewrite (bind_ok _ _ _ _ _ (possible_moves_of_fresh _ _ _ H)).
Qed.

(** With a list of root moves and generous time: [random.choice] on
    that list; the heap is left alone. *)
Lemma ComboEngine_search_random s board b time_limit ponder draw_offered
    r (l : list Move) :
  heap s !! board = Some (OBoard b) ->
  heap s !! r = Some (OList l) ->
  generous (clock_of time_limit (turn (position b))).1
           (clock_of time_limit (turn (position b))).2 = true ->
  (ComboEngine_search board time_limit ponder draw_offered (RList r) s).1
  = match l !! (randbelow (length l) (rng s)).1 with
    | Some m => Ok (mkPlayResult (Some m) None draw_offered)
    | None => Raise IndexError
    end /\
  heap (ComboEngine_search board time_limit ponder draw_offered
          (RList r) s).2 = heap s.
Proof.
  intros H Hr Hg. unfold ComboEngine_search.
  rewrite (bind_ok _ _ _ _ _ (my_clock_ok _ _ _ time_limit H)).
  destruct (clock_of _ _) as [my_time my_inc]. simpl in Hg.
  unfold possible_moves_of. rewrite (bind_ok _ _ _ r s (eq_refl : ret r s = _)).
  rewrite Hg.
  destruct l as [|m l].
  - erewrite bind_raise; [now split|].
    rewrite (bind_ok _ _ _ _ _ (read_list_ok _ _ _ Hr)). reflexivity.
  - destruct (random_choice_ok (m :: l) s) as (x & Hx & Ex); [congruence|].
    erewrite bind_ok.
    2:{ rewrite (bind_ok _ _ _ _ _ (read_list_ok _ _ _ Hr)). exact Ex. }
    now rewrite Hx.
Qed.

(** With a list of root moves and little time: the list object is
    sorted where it stands and its element 0 is returned. *)
Lemma ComboEngine_search_sorted s board b time_limit ponder draw_offered
    r (l : list Move) :
  heap s !! board = Some (OBoard b) ->
  heap s !! r = Some (OList l) ->
  generous (clock_of time_limit (turn (position b))).1
           (clock_of time_limit (turn (position b))).2 = false ->
  ComboEngine_search board time_limit ponder draw_offered (RList r) s
  = (match sort_by uci l with
     | [] => Raise IndexError
     | m :: _ => Ok (mkPlayResult (Some m) None draw_offered)
     end,
     mkState (<[r := OList (sort_by uci l)]> (heap s)) (rng s)).
Proof.
  intros H Hr Hg. pose proof (lookup_lt_Some _ _ _ Hr) as Hlt.
  unfold ComboEngine_search.
  rewrite (bind_ok _ _ _ _ _ (my_clock_ok _ _ _ time_limit H)).
  destruct (clock_of _ _) as [my_time my_inc]. simpl in Hg.
  unfold possible_moves_of. rewrite (bind_ok _ _ _ r s (eq_refl : ret r s = _)).
  rewrite Hg. set (s1 := mkState _ _).
  assert (E : list_sort_str r s = (Ok tt, s1)).
  { unfold list_sort_str.
    now rewrite (bind_ok _ _ _ _ _ (read_list_ok _ _ _ Hr)). }
  assert (H1 : heap s1 !! r = Some (OList (sort_by uci l))).
  { simpl. now apply list_lookup_insert_eq. }
  destruct (sort_by uci l) as [|m l'] eqn:Es.
  - erewrite bind_raise; [reflexivity|].
    rewrite (bind_ok _ _ _ _ _ E).
    now rewrite (bind_ok _ _ _ _ _ (read_list_ok _ _ _ H1)).
  - erewrite bind_ok; [reflexivity|].
    rewrite (bind_ok _ _ _ _ _ E).
    now rewrite (bind_ok _ _ _ _ _ (read_list_ok _ _ _ H1)).
Qed.

Lemma generous_iff (my_time my_inc : Z) :
  generous my_time my_inc = true <-> 600 < my_time + 60 * my_inc.
Proof.
  unfold generous, Qle_bool, Qplus, Qdiv, Qmult, Qinv, inject_Z. simpl.
  rewrite negb_true_iff, Z.leb_gt. lia.
Qed.


(** The outcome of [ComboEngine.search], in terms of the candidate
    moves. *)
Lemma ComboEngine_search_outcome s board b time_limit ponder draw_offered
    root_moves :
  heap s !! board = Some (OBoard b) ->
  root_moves_ok s root_moves ->
  (ComboEngine_search board time_limit ponder draw_offered root_moves s).1
  = if generous (clock_of time_limit (turn (position b))).1
                (clock_of time_limit (turn (position b))).2
    then
      match candidates s b root_moves
            !! (randbelow (length (candidates s b root_moves)) (rng s)).1
      with
      | Some m => Ok (mkPlayResult (Some m) None draw_offered)
      | None => Raise IndexError
      end
    else
      match sort_by uci (candidates s b root_moves) with
      | [] => Raise IndexError
      | m :: _ => Ok (mkPlayResult (Some m) None draw_offered)
      end.
Proof.
  intros H Hok. pose proof (lookup_lt_Some _ _ _ H) as Hlt.
  assert (Hgen : forall s' r l,
             heap s' !! board = Some (OBoard b) ->
             heap s' !! r = Some (OList l) ->
             (ComboEngine_search board time_limit ponder draw_offered
                (RList r) s').1
             = if generous (clock_of time_limit (turn (position b))).1
                           (clock_of time_limit (turn (position b))).2
               then
                 match l !! (randbelow (length l) (rng s')).1 with
                 | Some m => Ok (mkPlayResult (Some m) None draw_offered)
                 | None => Raise IndexError
                 end
               else
                 match sort_by uci l with
                 | [] => Raise IndexError
                 | m :: _ => Ok (mkPlayResult (Some m) None draw_offered)
                 end).
  { intros s' r l Hb Hr.
    destruct (generous _ _) eqn:Hg.
    - now destruct (ComboEngine_search_random s' board b time_limit ponder
                      draw_offered r l Hb Hr Hg).
    - now rewrite (ComboEngine_search_sorted s' board b time_limit ponder
                     draw_offered r l Hb Hr Hg). }
  destruct root_moves as [r|]; simpl in *.
  - destruct Hok as [l Hr]. rewrite Hr. now apply Hgen.
  - rewrite (ComboEngine_search_unrestricted _ _ _ _ _ _ H).
    rewrite (Hgen _ _ (legal_moves (position b))); [reflexivity| |].
    + simpl. now rewrite lookup_app_l.
    + simpl. now apply list_lookup_middle.
Qed.

(** *** Legal moves: the engines that look only at the root *)

Lemma RandomMove_search_legal s board b args :
  heap s !! board = Some (OBoard b) ->
  legal_moves (position b) <> [] ->
  exists m, (RandomMove_search board args s).1
            = Ok (mkPlayResult (Some m) None false) /\
            m ∈ legal_moves (position b).
Proof.
  intros H Hne.
  destruct (RandomMove_search_outcome s board b args H) as [E _].
  destruct (random_choice_ok (legal_moves (position b)) s Hne)
    as (x & Hx & _).
  exists x. rewrite E, Hx. split; [reflexivity|].
  now apply list_elem_of_lookup_2 in Hx.
Qed.

Lemma Alphabetical_search_legal s board b args :
  heap s !! board = Some (OBoard b) ->
  legal_moves (position b) <> [] ->
  exists m, (Alphabetical_search board args s).1
            = Ok (mkPlayResult (Some m) None false) /\
            m ∈ legal_moves (position b).
Proof.
  intros H Hne. rewrite (Alphabetical_search_outcome s board b args H).
  destruct (sort_by _ _) as [|m l'] eqn:E.
  - now apply sort_by_nil in E.
  - exists m. split; [reflexivity|]. now apply sort_by_head in E.
Qed.

Lemma FirstMove_search_legal s board b args :
  heap s !! board = Some (OBoard b) ->
  legal_moves (position b) <> [] ->
  exists m, (FirstMove_search board args s).1
            = Ok (mkPlayResult (Some m) None false) /\
            m ∈ legal_moves (position b).
Proof.
  intros H Hne. rewrite (FirstMove_search_outcome s board b args H).
  destruct (sort_by _ _) as [|m l'] eqn:E.
  - now apply sort_by_nil in E.
  - exists m. split; [reflexivity|]. now apply sort_by_head in E.
Qed.

(** With candidates to choose from, [ComboEngine.search] returns one
    of them. *)
Lemma ComboEngine_search_candidate s board b time_limit ponder
    draw_offered root_moves :
  heap s !! board = Some (OBoard b) ->
  root_moves_ok s root_moves ->
  candidates s b root_moves <> [] ->
  exists m,
    (ComboEngine_search board time_limit ponder draw_offered
       root_moves s).1
    = Ok (mkPlayResult (Some m) None draw_offered) /\
    m ∈ candidates s b root_moves.
Proof.
  intros H Hok Hne.
  rewrite (ComboEngine_search_outcome s board b time_limit ponder
             draw_offered root_moves H Hok).
  destruct (generous _ _).
  - destruct (random_choice_ok (candidates s b root_moves) s Hne)
      as (x & Hx & _).
    exists x. rewrite Hx. split; [reflexivity|].
    now apply list_elem_of_lookup_2 in Hx.
  - destruct (sort_by _ _) as [|m l'] eqn:E.
    + now apply sort_by_nil in E.
    + exists m. split; [reflexivity|]. now apply sort_by_head in E.
Qed.

Lemma ComboEngine_search_legal s board b time_limit ponder draw_offered :
  heap s !! board = Some (OBoard b) ->
  legal_moves (position b) <> [] ->
  exists m,
    (ComboEngine_search board time_limit ponder draw_offered RNotList s).1
    = Ok (mkPlayResult (Some m) None draw_offered) /\
    m ∈ legal_moves (position b).
Proof.
  intros H Hne.
  now apply (ComboEngine_search_candidate s board b time_limit ponder
               draw_offered RNotList H I Hne).
Qed.

(** *** Properties over every rules engine *)





(** C7: [evaluate_board] returns the material balance of the board's
    position (for pawn 1, knight 3, bishop 3, rook 5, queen 9: White's
    count minus Black's count, times the value) and changes nothing;
    two positions that differ only in their kings get the same
    score. *)
Theorem evaluate_board_material s board b :
  heap s !! board = Some (OBoard b) ->
  evaluate_board board s = (Ok (material_balance (position b)), s) /\
  (forall s' board' b',
      heap s' !! board' = Some (OBoard b') ->
      (forall pt c, pt <> KING ->
                    length (pieces (position b') pt c)
                    = length (pieces (position b) pt c)) ->
      (evaluate_board board' s').1 = Ok (material_balance (position b))).
Proof.
  intros H. split; [now apply evaluate_board_ok|].
  intros s' board' b' H' Hsame.
  rewrite (evaluate_board_ok _ _ _ H'). simpl. f_equal.
  unfold material_balance, count.
  now rewrite !Hsame by discriminate.
Qed.

Lemma ComboEngine_search_frame s board b time_limit ponder draw_offered
    r (l : list Move) :
  heap s !! board = Some (OBoard b) ->
  heap s !! r = Some (OList l) ->
  heap (ComboEngine_search board time_limit ponder draw_offered
          (RList r) s).2 !! board = Some (OBoard b).
Proof.
  intros H Hr.
  destruct (generous (clock_of time_limit (turn (position b))).1
                     (clock_of time_limit (turn (position b))).2) eqn:Hg.
  - destruct (ComboEngine_search_random s board b time_limit ponder
                draw_offered r l H Hr Hg) as [_ E].
    now rewrite E.
  - rewrite (ComboEngine_search_sorted s board b time_limit ponder
               draw_offered r l H Hr Hg).
    simpl. rewrite list_lookup_insert_ne; [exact H|].
    intros ->. congruence.
Qed.

(** C8: a call of any engine's [search] leaves the caller's board as
    it was.  [Sciasa.search] returns and leaves unchanged every object
    that was on the heap: its pushes and pops are made on the copies
    it allocates. *)
Theorem search_leaves_board_unchanged s board b args :
  heap s !! board = Some (OBoard b) ->
  (exists best_move ext,
      Sciasa_search board args s
      = (Ok (mkPlayResult best_move None false),
         mkState (heap s ++ ext) (rng s))) /\
  heap (Sciasa_search board args s).2 !! board = Some (OBoard b) /\
  heap (RandomMove_search board args s).2 !! board = Some (OBoard b) /\
  heap (Alphabetical_search board args s).2 !! board = Some (OBoard b) /\
  heap (FirstMove_search board args s).2 !! board = Some (OBoard b) /\
  (forall time_limit ponder draw_offered root_moves,
      root_moves_ok s root_moves ->
      heap (ComboEngine_search board time_limit ponder draw_offered
              root_moves s).2 !! board = Some (OBoard b)).
Proof.
  intros H. pose proof (lookup_lt_Some _ _ _ H) as Hlt.
  destruct (Sciasa_search_ok s board b args H) as (bm & ext & E & _).
  split; [now exists bm, ext|].
  split; [rewrite E; simpl; now rewrite lookup_app_l|].
  split.
  { destruct (RandomMove_search_outcome s board b args H) as [_ E'].
    now rewrite E'. }
  split; [now rewrite (Alphabetical_search_outcome s board b args H)|].
  split; [now rewrite (FirstMove_search_outcome s board b args H)|].
  intros time_limit ponder draw_offered [r|] Hok.
  - destruct Hok as [l Hr].
    now apply ComboEngine_search_frame with l.
  - rewrite (ComboEngine_search_unrestricted _ _ _ _ _ _ H).
    apply ComboEngine_search_frame with (legal_moves (position b)).
    + simpl. now rewrite lookup_app_l.
    + simpl. now apply list_lookup_middle.
Qed.


End EngineFacts.

(** ** What the search loop computes *)

Section SearchFacts.
Context {Pos Move : Type} `{Rules : ChessRules Pos Move}.

Implicit Types (s : State Pos Move) (b : Board Pos Move) (r board : loc).

Lemma queue_frontier_grow depth (h ext : list (Obj Pos Move)) q :
  queue_ok h q ->
  queue_frontier depth (h ++ ext) q = queue_frontier depth h q.
Proof.
  unfold queue_frontier. induction 1 as [|it q [b Hb] _ IH].
  - reflexivity.
  - rewrite !bind_cons, IH. f_equal. unfold item_frontier.
    rewrite lookup_app_l; [reflexivity|]. now apply lookup_lt_Some in Hb.
Qed.

Lemma queue_frontier_app depth (h : list (Obj Pos Move)) q1 q2 :
  queue_frontier depth h (q1 ++ q2)
  = queue_frontier depth h q1 ++ queue_frontier depth h q2.
Proof. unfold queue_frontier. apply bind_app. Qed.

Lemma queue_frontier_cons depth (h : list (Obj Pos Move)) it q :
  queue_frontier depth h (it :: q)
  = item_frontier depth h it ++ queue_frontier depth h q.
Proof. unfold queue_frontier. apply bind_cons. Qed.

Lemma item_frontier_ok depth (h : list (Obj Pos Move)) cb d
    (lm : option Move) b :
  h !! cb = Some (OBoard b) ->
  item_frontier depth h (cb, d, lm)
  = frontier (Z.to_nat (depth - d)) (position b) lm.
Proof. unfold item_frontier. simpl. now intros ->. Qed.

Lemma new_items_frontier depth (h : list (Obj Pos Move)) b d
    (moves : list Move) :
  queue_frontier depth (h ++ map (fun m => OBoard (push_board b m)) moves)
                 (new_items (length h) d moves)
  = moves ≫= (fun m => frontier (Z.to_nat (depth - (d + 1)))
                                (apply_move (position b) m) (Some m)).
Proof.
  revert h. induction moves as [|m moves IH]; intros h.
  - reflexivity.
  - cbn [new_items map]. rewrite queue_frontier_cons, bind_cons. f_equal.
    + unfold item_frontier. simpl.
      now rewrite (list_lookup_middle h _ (OBoard (push_board b m)) (length h) eq_refl).
    + specialize (IH (h ++ [OBoard (push_board b m)])).
      rewrite length_app, <- app_assoc in IH. simpl in IH.
      now replace (length h + 1)%nat with (S (length h)) in IH by lia.
Qed.

Lemma new_items_depth base d (moves : list Move) :
  Forall (fun it : QueueItem Move => it.1.2 = d + 1)
         (new_items base d moves).
Proof.
  revert base. induction moves as [|m moves IH]; intros base; simpl.
  - constructor.
  - constructor; [reflexivity|apply IH].
Qed.

(** The loop, run on a queue whose items are at one depth followed by
    their successors' depth, evaluates the frontier in order: first below
    the deeper items, then below the others. *)
Lemma bfs_spec fuel board depth b0 :
  forall q1 q2 d bm be s,
    heap s !! board = Some (OBoard b0) ->
    queue_ok (heap s) (q1 ++ q2) ->
    Forall (fun it : QueueItem Move => it.1.2 = d) q1 ->
    Forall (fun it : QueueItem Move => it.1.2 = d + 1) q2 ->
    (q2 <> [] -> d < depth) ->
    (queue_size depth (heap s) (q1 ++ q2) < fuel)%nat ->
    (bfs fuel board depth (q1 ++ q2) bm be s).1
    = Ok (choose (turn (position b0))
            (queue_frontier depth (heap s) q2
             ++ queue_frontier depth (heap s) q1) bm be).1.
Proof.
  induction fuel as [|fuel IH]; intros q1 q2 d bm be s Hb Hq H1 H2 Hd Hsz;
    [lia|].
  assert (Hcore : forall (it : QueueItem Move)
                         (q1' q2' : list (QueueItem Move)),
             queue_ok (heap s) ((it :: q1') ++ q2') ->
             Forall (fun it' : QueueItem Move => it'.1.2 = it.1.2) q1' ->
             Forall (fun it' : QueueItem Move => it'.1.2 = it.1.2 + 1) q2' ->
             (q2' <> [] -> it.1.2 < depth) ->
             (queue_size depth (heap s) ((it :: q1') ++ q2') < S fuel)%nat ->
             (bfs (S fuel) board depth ((it :: q1') ++ q2') bm be s).1
             = Ok (choose (turn (position b0))
                     (queue_frontier depth (heap s) q2'
                      ++ queue_frontier depth (heap s) (it :: q1'))
                     bm be).1).
  { clear q1 q2 d Hq H1 H2 Hd Hsz.
    intros it q1 q2 Hq H1 H2 Hd Hsz.
    rewrite <- app_comm_cons in Hq, Hsz |- *.
    apply Forall_cons in Hq as [[b Hcb] Hq].
    rewrite queue_size_cons in Hsz. rewrite queue_frontier_cons.
    destruct it as [[cb d] lm]. simpl in Hcb, H1, H2, Hd.
    rewrite (item_size_ok _ _ _ _ _ b Hcb) in Hsz.
    rewrite (item_frontier_ok _ _ _ _ _ b Hcb).
    simpl. destruct (depth <=? d) eqn:Hle.
    - apply Z.leb_le in Hle.
      destruct q2 as [|x q2]; [|exfalso; specialize (Hd ltac:(discriminate)); lia].
      rewrite app_nil_r in *.
      pose proof (tree_size_pos (Z.to_nat (depth - d)) (position b)).
      replace (Z.to_nat (depth - d)) with O by lia. simpl.
      rewrite (bind_ok _ _ _ _ _ (evaluate_board_ok _ _ _ Hcb)).
      rewrite (bind_ok _ _ _ _ _ (board_turn_ok _ _ _ Hb)).
      assert (Hnext : forall bm' be',
                 (bfs fuel board depth q1 bm' be' s).1
                 = Ok (choose (turn (position b0))
                         (queue_frontier depth (heap s) q1) bm' be').1).
      { intros bm' be'.
        specialize (IH q1 [] d bm' be' s Hb).
        rewrite app_nil_r in IH.
        apply IH; auto; try constructor; try congruence; lia. }
      unfold better.
      destruct (turn (position b0));
        [destruct (gt_ext _ _)|destruct (lt_ext _ _)]; apply Hnext.
    - apply Z.leb_gt in Hle.
      rewrite (bind_ok _ _ _ _ _ (board_legal_moves_ok _ _ _ Hcb)).
      rewrite (bind_ok _ _ _ _ _ (expand_ok _ _ _ d _ (q1 ++ q2) Hcb)).
      set (ext1 := map _ _).
      replace (Z.to_nat (depth - d))
        with (S (Z.to_nat (depth - (d + 1)))) in Hsz |- * by lia.
      apply Forall_app in Hq as [Hq1 Hq2].
      rewrite <- app_assoc.
      rewrite (IH q1 (q2 ++ new_items (length (heap s)) d
                                      (legal_moves (position b)))
                  d bm be (mkState (heap s ++ ext1) (rng s))).
      + cbn [heap]. rewrite queue_frontier_app.
        rewrite (queue_frontier_grow depth (heap s) ext1 q2 Hq2).
        rewrite (queue_frontier_grow depth (heap s) ext1 q1 Hq1).
        unfold ext1. rewrite new_items_frontier.
        simpl. now rewrite <- app_assoc.
      + simpl. rewrite lookup_app_l; [exact Hb|].
        now apply lookup_lt_Some in Hb.
      + simpl. rewrite app_assoc. apply Forall_app. split.
        * apply queue_ok_grow. now apply Forall_app.
        * apply new_items_ok.
      + exact H1.
      + apply Forall_app. split; [exact H2|apply new_items_depth].
      + intros _. exact Hle.
      + cbn [heap]. rewrite app_assoc. unfold queue_size.
        rewrite sum_list_with_app.
        fold (queue_size depth (heap s ++ ext1) (q1 ++ q2)).
        rewrite queue_size_grow by (now apply Forall_app).
        fold (queue_size depth (heap s ++ ext1)
                (new_items (length (heap s)) d (legal_moves (position b)))).
        unfold ext1. rewrite new_items_size.
        simpl in Hsz. lia. }
  destruct q1 as [|[[cb d1] lm] q1].
  - destruct q2 as [|[[cb d2] lm] q2]; [reflexivity|].
    apply Forall_cons in H2 as [Hd2 H2]. simpl in Hd2. subst d2.
    rewrite app_nil_l in *.
    pose proof (Hcore (cb, d + 1, lm) q2 []) as Hc.
    rewrite app_nil_r in Hc.
    rewrite Hc; auto; try constructor; try congruence.
    change (queue_frontier depth (heap s) []) with (@nil (Pos * option Move)).
    now rewrite app_nil_r.
  - apply Forall_cons in H1 as [Hd1 H1]. simpl in Hd1. subst d1.
    now apply (Hcore (cb, d, lm)).
Qed.


(** The move [Sciasa.search] returns is the one chosen on the frontier
    of the root, [depth] plies down, starting from no move and the
    worst evaluation for the side to move at the root. *)
Lemma Sciasa_search_choose s board b args :
  heap s !! board = Some (OBoard b) ->
  (Sciasa_search board args s).1
  = Ok (mkPlayResult
          (choose (turn (position b))
                  (frontier (Z.to_nat (depth_of args)) (position b) None)
                  None (worst (turn (position b)))).1
          None false).
Proof.
  intros H. pose proof (lookup_lt_Some _ _ _ H) as Hlt.
  unfold Sciasa_search. set (depth := depth_of args).
  rewrite (bind_ok _ _ _ _ _ (board_copy_ok _ _ _ H)).
  set (s1 := mkState _ _).
  assert (H1 : heap s1 !! board = Some (OBoard b)).
  { simpl. now rewrite lookup_app_l. }
  assert (Hc : heap s1 !! length (heap s) = Some (OBoard b)).
  { simpl. now apply list_lookup_middle. }
  rewrite (bind_ok _ _ _ _ _ (board_turn_ok _ _ _ H1)).
  rewrite (bind_ok _ _ _ _ _ (read_board_ok _ _ _ H1)).
  set (q0 := @cons (QueueItem Move) (length (heap s), 0, None) []).
  assert (Hq : queue_ok (heap s1) q0).
  { constructor; [|constructor]. now exists b. }
  assert (Hsz : (queue_size depth (heap s1) q0
                 < search_fuel depth (position b))%nat).
  { unfold q0. rewrite queue_size_cons, (item_size_ok _ _ _ _ _ b Hc).
    unfold queue_size, search_fuel. simpl. rewrite Z.sub_0_r. lia. }
  destruct (bfs_ok (search_fuel depth (position b)) board depth b
              q0 None
              (if turn (position b) then NegInf else PosInf) s1 H1 Hq Hsz)
    as (res & ext & E & _).
  assert (Hspec : (bfs (search_fuel depth (position b)) board depth q0 None
                       (if turn (position b) then NegInf else PosInf) s1).1
                  = Ok (choose (turn (position b))
                          (queue_frontier depth (heap s1) q0) None
                          (if turn (position b) then NegInf else PosInf)).1).
  { pose proof (bfs_spec (search_fuel depth (position b)) board depth b
                  q0 [] 0 None
                  (if turn (position b) then NegInf else PosInf) s1 H1)
      as Hspec.
    rewrite app_nil_r in Hspec. apply Hspec.
    - exact Hq.
    - repeat constructor.
    - constructor.
    - intros Hne. congruence.
    - exact Hsz. }
  rewrite E in Hspec. cbn [fst] in Hspec. injection Hspec as ->.
  rewrite (bind_ok _ _ _ _ _ E). unfold ret. cbn [fst].
  rewrite app_nil_r.
  rewrite (item_frontier_ok depth (heap s ++ [OBoard b]) _ _ _ b Hc).
  now rewrite Z.sub_0_r.
Qed.

(** *** The choice is the first best node *)

Lemma better_fin white v e :
  better white v (Fin e) = true
  <-> side_score white e < side_score white v.
Proof.
  unfold better, side_score. destruct white; simpl; rewrite Z.ltb_lt; lia.
Qed.

Lemma better_worst white v : better white v (worst white) = true.
Proof. now destruct white. Qed.

Lemma choose_fin white (nodes : list (Pos * option Move)) bm e :
  (choose white nodes bm (Fin e) = (bm, Fin e) /\
   forall j n, nodes !! j = Some n ->
               side_score white (material_balance n.1)
               <= side_score white e) \/
  (exists i p lm,
      nodes !! i = Some (p, lm) /\
      choose white nodes bm (Fin e) = (lm, Fin (material_balance p)) /\
      side_score white e < side_score white (material_balance p) /\
      (forall j n, nodes !! j = Some n ->
                   side_score white (material_balance n.1)
                   <= side_score white (material_balance p)) /\
      (forall j n, (j < i)%nat -> nodes !! j = Some n ->
                   side_score white (material_balance n.1)
                   < side_score white (material_balance p))).
Proof.
  revert bm e. induction nodes as [|[p0 lm0] nodes IH]; intros bm e.
  - left. split; [reflexivity|]. intros j n Hj. discriminate.
  - simpl. destruct (better white (material_balance p0) (Fin e)) eqn:Hb.
    + apply better_fin in Hb. right.
      destruct (IH lm0 (material_balance p0))
        as [[E Hall]|(i & p & lm & Hi & E & Hlt & Hall & Hfirst)].
      * exists O, p0, lm0. repeat split; auto.
        -- intros [|j] n Hj; simpl in Hj.
           ++ injection Hj as <-. simpl. lia.
           ++ now apply (Hall j).
        -- intros j n Hj. lia.
      * exists (S i), p, lm. repeat split; auto; try lia.
        -- intros [|j] n Hj; simpl in Hj.
           ++ injection Hj as <-. simpl. lia.
           ++ now apply (Hall j).
        -- intros [|j] n Hlt' Hj; simpl in Hj.
           ++ injection Hj as <-. simpl. lia.
           ++ apply (Hfirst j); [lia|exact Hj].
    + assert (Hle : side_score white (material_balance p0)
                    <= side_score white e).
      { destruct (Z.lt_ge_cases (side_score white e)
                    (side_score white (material_balance p0))) as [L|G];
          [|lia].
        apply better_fin in L. congruence. }
      destruct (IH bm e)
        as [[E Hall]|(i & p & lm & Hi & E & Hlt & Hall & Hfirst)].
      * left. split; [exact E|].
        intros [|j] n Hj; simpl in Hj.
        -- injection Hj as <-. exact Hle.
        -- now apply (Hall j).
      * right. exists (S i), p, lm. repeat split; auto.
        -- intros [|j] n Hj; simpl in Hj.
           ++ injection Hj as <-. simpl. lia.
           ++ now apply (Hall j).
        -- intros [|j] n Hlt' Hj; simpl in Hj.
           ++ injection Hj as <-. simpl. lia.
           ++ apply (Hfirst j); [lia|exact Hj].
Qed.

(** Started from the worst evaluation, the choice on a non-empty list
    of nodes is the first node whose evaluation is best for the side. *)
Lemma choose_worst white (nodes : list (Pos * option Move)) bm :
  nodes <> [] ->
  exists i p lm,
    nodes !! i = Some (p, lm) /\
    choose white nodes bm (worst white) = (lm, Fin (material_balance p)) /\
    (forall j n, nodes !! j = Some n ->
                 side_score white (material_balance n.1)
                 <= side_score white (material_balance p)) /\
    (forall j n, (j < i)%nat -> nodes !! j = Some n ->
                 side_score white (material_balance n.1)
                 < side_score white (material_balance p)).
Proof.
  destruct nodes as [|[p0 lm0] nodes]; [congruence|]. intros _.
  simpl. rewrite better_worst.
  destruct (choose_fin white nodes lm0 (material_balance p0))
    as [[E Hall]|(i & p & lm & Hi & E & Hlt & Hall & Hfirst)].
  - exists O, p0, lm0. repeat split; auto.
    + intros [|j] n Hj; simpl in Hj.
      * injection Hj as <-. simpl. lia.
      * now apply (Hall j).
    + intros j n Hj. lia.
  - exists (S i), p, lm. repeat split; auto.
    + intros [|j] n Hj; simpl in Hj.
      * injection Hj as <-. simpl. lia.
      * now apply (Hall j).
    + intros [|j] n Hlt' Hj; simpl in Hj.
      * injection Hj as <-. simpl. lia.
      * apply (Hfirst j); [lia|exact Hj].
Qed.

(** *** The frontier *)

Lemma frontier_one (p : Pos) (lm : option Move) :
  frontier 1 p lm = map (fun m => (apply_move p m, Some m)) (legal_moves p).
Proof.
  simpl. induction (legal_moves p) as [|m ms IH]; [reflexivity|].
  rewrite bind_cons, IH. reflexivity.
Qed.

Lemma lookup_map_inv {A B} (f : A -> B) (l : list A) j y :
  map f l !! j = Some y -> exists x, l !! j = Some x /\ y = f x.
Proof.
  revert j. induction l as [|a l IH]; intros [|j] H; simpl in H;
    try discriminate.
  - injection H as <-. now exists a.
  - now apply IH.
Qed.

Lemma lookup_map_some {A B} (f : A -> B) (l : list A) j x :
  l !! j = Some x -> map f l !! j = Some (f x).
Proof.
  revert j. induction l as [|a l IH]; intros [|j] H; simpl in H;
    try discriminate.
  - now injection H as <-.
  - now apply IH.
Qed.

(** Below the root every node of the frontier carries a move. *)
Lemma frontier_some k (p : Pos) (m : Move) n :
  n ∈ frontier k p (Some m) -> exists m', n.2 = Some m'.
Proof.
  revert p m. induction k as [|k IH]; intros p m Hn; simpl in Hn.
  - apply list_elem_of_singleton in Hn. subst n. now exists m.
  - apply list_elem_of_bind in Hn as (m1 & Hn & _). now apply IH in Hn.
Qed.

Lemma frontier_succ_some k (p : Pos) (lm : option Move) n :
  n ∈ frontier (S k) p lm -> exists m', n.2 = Some m'.
Proof.
  simpl. intros Hn.
  apply list_elem_of_bind in Hn as (m1 & Hn & _).
  now apply frontier_some in Hn.
Qed.

(** *** [Sciasa.search]: which move *)

(** X1: when the frontier of the root, [depth] plies down, is not
    empty, [Sciasa.search] returns the leading-move field of a frontier
    node whose evaluation is best for the side to move at the root (the
    greatest for White, the least for Black), and of the first such node
    in the order of evaluation: a later node replaces the best only when
    strictly better. *)
Theorem Sciasa_search_first_best s board b args :
  heap s !! board = Some (OBoard b) ->
  frontier (Z.to_nat (depth_of args)) (position b) None <> [] ->
  exists i p lm,
    frontier (Z.to_nat (depth_of args)) (position b) None !! i
    = Some (p, lm) /\
    (Sciasa_search board args s).1 = Ok (mkPlayResult lm None false) /\
    (forall j n,
        frontier (Z.to_nat (depth_of args)) (position b) None !! j
        = Some n ->
        side_score (turn (position b)) (material_balance n.1)
        <= side_score (turn (position b)) (material_balance p)) /\
    (forall j n,
        (j < i)%nat ->
        frontier (Z.to_nat (depth_of args)) (position b) None !! j
        = Some n ->
        side_score (turn (position b)) (material_balance n.1)
        < side_score (turn (position b)) (material_balance p)).
Proof.
  intros H Hne.
  destruct (choose_worst (turn (position b)) _ None Hne)
    as (i & p & lm & Hi & E & Hall & Hfirst).
  exists i, p, lm. rewrite (Sciasa_search_choose s board b args H), E.
  repeat split; assumption.
Qed.

(** X2: [Sciasa.search] always returns a result, and the move of the
    result is [None] exactly when the depth is zero or negative (the
    root itself is the frontier, and its leading move is [None]) or no
    line of [depth] plies starts at the root. *)
Theorem Sciasa_search_none_iff s board b args :
  heap s !! board = Some (OBoard b) ->
  exists best_move,
    (Sciasa_search board args s).1
    = Ok (mkPlayResult best_move None false) /\
    (best_move = None
     <-> depth_of args <= 0 \/
         frontier (Z.to_nat (depth_of args)) (position b) None = []).
Proof.
  intros H. rewrite (Sciasa_search_choose s board b args H).
  eexists. split; [reflexivity|].
  destruct (frontier (Z.to_nat (depth_of args)) (position b) None)
    as [|n0 nodes] eqn:Ef.
  - simpl. split; auto.
  - destruct (choose_worst (turn (position b)) (n0 :: nodes) None)
      as (i & p & lm & Hi & E & _); [congruence|].
    rewrite E. simpl.
    destruct (Z.to_nat (depth_of args)) as [|k] eqn:Ek.
    + simpl in Ef. injection Ef as <- <-.
      destruct i as [|i]; [|discriminate].
      injection Hi as _ <-. split; [intros _; left; lia|reflexivity].
    + assert (Hin : (p, lm) ∈ frontier (S k) (position b) None).
      { rewrite Ef. now apply list_elem_of_lookup_2 in Hi. }
      apply frontier_succ_some in Hin as [m' Hm']. simpl in Hm'. subst lm.
      split; [discriminate|]. intros [Hle|Hnil]; [lia|discriminate].
Qed.

(** X3: at depth 1 on a position with legal moves, [Sciasa.search]
    returns a legal move after which the material balance is best for
    the side to move, and the first such move in generation order. *)
Theorem Sciasa_search_depth_one_best s board b args :
  heap s !! board = Some (OBoard b) ->
  legal_moves (position b) <> [] ->
  exists i m,
    legal_moves (position b) !! i = Some m /\
    (Sciasa_search board (AInt 1 :: args) s).1
    = Ok (mkPlayResult (Some m) None false) /\
    (forall j m',
        legal_moves (position b) !! j = Some m' ->
        side_score (turn (position b))
                   (material_balance (apply_move (position b) m'))
        <= side_score (turn (position b))
                      (material_balance (apply_move (position b) m))) /\
    (forall j m',
        (j < i)%nat ->
        legal_moves (position b) !! j = Some m' ->
        side_score (turn (position b))
                   (material_balance (apply_move (position b) m'))
        < side_score (turn (position b))
                     (material_balance (apply_move (position b) m))).
Proof.
  intros H Hne.
  rewrite (Sciasa_search_choose s board b (AInt 1 :: args) H).
  change (Z.to_nat (depth_of (AInt 1 :: args))) with 1%nat.
  rewrite frontier_one.
  destruct (choose_worst (turn (position b))
              (map (fun m => (apply_move (position b) m, Some m))
                   (legal_moves (position b))) None)
    as (i & p & lm & Hi & E & Hall & Hfirst).
  { destruct (legal_moves (position b)); [congruence|discriminate]. }
  apply lookup_map_inv in Hi as (m & Hi & Epm). injection Epm as -> ->.
  exists i, m. rewrite E. split; [exact Hi|]. split; [reflexivity|].
  split.
  - intros j m' Hj.
    apply (Hall j (apply_move (position b) m', Some m')).
    now apply lookup_map_some with (f := fun m => (apply_move (position b) m, Some m)).
  - intros j m' Hlt Hj.
    apply (Hfirst j (apply_move (position b) m', Some m') Hlt).
    now apply lookup_map_some with (f := fun m => (apply_move (position b) m, Some m)).
Qed.

(** X4: at depth 1 on a position with exactly one legal move,
    [Sciasa.search] returns that move, whatever the evaluation. *)
Theorem Sciasa_search_single_move s board b args (m : Move) :
  heap s !! board = Some (OBoard b) ->
  legal_moves (position b) = [m] ->
  (Sciasa_search board (AInt 1 :: args) s).1
  = Ok (mkPlayResult (Some m) None false).
Proof.
  intros H Hone.
  rewrite (Sciasa_search_choose s board b (AInt 1 :: args) H).
  change (Z.to_nat (depth_of (AInt 1 :: args))) with 1%nat.
  rewrite frontier_one, Hone. simpl. now rewrite better_worst.
Qed.

(** *** The [for] loop of [Sciasa.search] *)

Lemma new_items_lookup base d (moves : list Move) i m :
  moves !! i = Some m ->
  new_items base d moves !! i = Some ((base + i)%nat, d + 1, Some m).
Proof.
  revert base i. induction moves as [|m0 moves IH]; intros base [|i] H;
    simpl in H; try discriminate.
  - injection H as ->. simpl. now rewrite Nat.add_0_r.
  - change (new_items (S base) d moves !! i
            = Some ((base + S i)%nat, d + 1, Some m)).
    rewrite (IH (S base) i H). do 3 f_equal. lia.
Qed.

Lemma new_items_length base d (moves : list Move) :
  length (new_items base d moves) = length moves.
Proof.
  revert base. induction moves as [|m moves IH]; intros base; simpl;
    [reflexivity|]. now rewrite IH.
Qed.

(** X5: expanding a node appends to the queue one item per move, in
    order, at the next depth and with that move as its leading move; the
    item's board is a new object holding the node's board with the move
    pushed.  Every push is undone by its pop: the node's board and every
    other object that was on the heap are unchanged, and the random
    source is not used. *)
Theorem expand_queues_children s cb b d (moves : list Move) q :
  heap s !! cb = Some (OBoard b) ->
  exists q',
    (expand cb d moves q s).1 = Ok (q ++ q') /\
    length q' = length moves /\
    rng (expand cb d moves q s).2 = rng s /\
    (forall r o, heap s !! r = Some o ->
                 heap (expand cb d moves q s).2 !! r = Some o) /\
    (forall i m, moves !! i = Some m ->
       exists c,
         q' !! i = Some (c, d + 1, Some m) /\
         heap s !! c = None /\
         heap (expand cb d moves q s).2 !! c
         = Some (OBoard (push_board b m))).
Proof.
  intros H. rewrite (expand_ok s cb b d moves q H). simpl.
  exists (new_items (length (heap s)) d moves).
  split; [reflexivity|]. split; [apply new_items_length|].
  split; [reflexivity|]. split.
  - intros r o Hr. rewrite lookup_app_l; [exact Hr|].
    now apply lookup_lt_Some in Hr.
  - intros i m Hi. exists (length (heap s) + i)%nat.
    split; [now apply new_items_lookup|]. split.
    + apply lookup_ge_None. lia.
    + rewrite lookup_app_r by lia.
      replace (length (heap s) + i - length (heap s))%nat with i by lia.
      now apply lookup_map_some
        with (f := fun m => OBoard (push_board b m)).
Qed.

(** *** The evaluator: symmetry and the weight of a piece *)

(** X6: two positions that are each other's mirror in colour (each
    side has of every piece type what the other side has in the other
    position) get opposite scores. *)
Theorem evaluate_board_mirror s board b s' board' b' :
  heap s !! board = Some (OBoard b) ->
  heap s' !! board' = Some (OBoard b') ->
  (forall pt, count (position b') pt WHITE = count (position b) pt BLACK /\
              count (position b') pt BLACK = count (position b) pt WHITE) ->
  exists v,
    (evaluate_board board s).1 = Ok v /\
    (evaluate_board board' s').1 = Ok (- v).
Proof.
  intros H H' Hmirror. exists (material_balance (position b)).
  rewrite (evaluate_board_ok _ _ _ H), (evaluate_board_ok _ _ _ H').
  simpl. split; [reflexivity|]. f_equal. unfold material_balance.
  destruct (Hmirror PAWN) as [-> ->]. destruct (Hmirror KNIGHT) as [-> ->].
  destruct (Hmirror BISHOP) as [-> ->]. destruct (Hmirror ROOK) as [-> ->].
  destruct (Hmirror QUEEN) as [-> ->]. lia.
Qed.

(** X7: a position that has one more piece of type [pt] and colour [c]
    than another, and otherwise the same numbers of pieces, scores the
    value of [pt] higher when [c] is White and lower when [c] is Black;
    an extra king changes nothing. *)
Theorem evaluate_board_extra_piece s board b s' board' b' pt c :
  heap s !! board = Some (OBoard b) ->
  heap s' !! board' = Some (OBoard b') ->
  count (position b') pt c = count (position b) pt c + 1 ->
  (forall pt' c', (pt', c') <> (pt, c) ->
                  count (position b') pt' c' = count (position b) pt' c') ->
  exists v,
    (evaluate_board board s).1 = Ok v /\
    (evaluate_board board' s').1 = Ok (v + side_score c (piece_value pt)).
Proof.
  intros H H' Hone Hsame. exists (material_balance (position b)).
  rewrite (evaluate_board_ok _ _ _ H), (evaluate_board_ok _ _ _ H').
  simpl. split; [reflexivity|]. f_equal. unfold material_balance.
  pose proof (Hsame PAWN WHITE) as Hpw. pose proof (Hsame PAWN BLACK) as Hpb.
  pose proof (Hsame KNIGHT WHITE) as Hnw.
  pose proof (Hsame KNIGHT BLACK) as Hnb.
  pose proof (Hsame BISHOP WHITE) as Hbw.
  pose proof (Hsame BISHOP BLACK) as Hbb.
  pose proof (Hsame ROOK WHITE) as Hrw. pose proof (Hsame ROOK BLACK) as Hrb.
  pose proof (Hsame QUEEN WHITE) as Hqw.
  pose proof (Hsame QUEEN BLACK) as Hqb.
  unfold WHITE, BLACK in *.
  destruct pt, c; simpl;
    repeat match goal with
           | Hx : (?a, ?x) <> (?a', ?x') -> _ |- _ =>
               first [ specialize (Hx ltac:(discriminate)) | clear Hx ]
           end;
    lia.
Qed.

(** *** The engines that look only at the root *)

(** X8: on a position with legal moves [RandomMove.search] draws one
    number from the random source and returns the legal move at that
    number reduced below the number of legal moves, leaving the heap as
    it was; every legal move is the one returned for some draw. *)
Theorem RandomMove_search_draw s board b args x tape :
  heap s !! board = Some (OBoard b) ->
  legal_moves (position b) <> [] ->
  rng s = x :: tape ->
  (exists m,
      legal_moves (position b)
        !! (x mod length (legal_moves (position b)))%nat = Some m /\
      RandomMove_search board args s
      = (Ok (mkPlayResult (Some m) None false), mkState (heap s) tape)) /\
  (forall i m,
      legal_moves (position b) !! i = Some m ->
      (RandomMove_search board args (mkState (heap s) (i :: tape))).1
      = Ok (mkPlayResult (Some m) None false)).
Proof.
  intros H Hne Hrng. split.
  - unfold RandomMove_search.
    rewrite (bind_ok _ _ _ _ _ (board_legal_moves_ok _ _ _ H)).
    destruct (random_choice_ok (legal_moves (position b)) s Hne)
      as (m & Hm & E).
    rewrite Hrng in Hm, E. simpl in Hm, E.
    exists m. split; [exact Hm|]. now rewrite (bind_ok _ _ _ _ _ E).
  - intros i m Hi.
    destruct (RandomMove_search_outcome (mkState (heap s) (i :: tape))
                board b args H) as [E _].
    rewrite E. simpl.
    rewrite Nat.mod_small by (now apply lookup_lt_Some in Hi).
    now rewrite Hi.
Qed.

(** X9: on a position with legal moves [Alphabetical.search] returns a
    legal move whose short-form notation is least among the legal moves,
    and changes neither the heap nor the random source. *)
Theorem Alphabetical_search_least s board b args :
  heap s !! board = Some (OBoard b) ->
  legal_moves (position b) <> [] ->
  exists m,
    Alphabetical_search board args s
    = (Ok (mkPlayResult (Some m) None false), s) /\
    m ∈ legal_moves (position b) /\
    (forall m', m' ∈ legal_moves (position b) ->
                key_le (san (position b)) m m').
Proof.
  intros H Hne. rewrite (Alphabetical_search_outcome s board b args H).
  destruct (sort_by _ _) as [|m l'] eqn:E.
  - now apply sort_by_nil in E.
  - exists m. split; [reflexivity|]. now apply sort_by_head in E.
Qed.

(** X10: on a position with legal moves [FirstMove.search] returns a
    legal move whose long-form notation is least among the legal moves,
    and changes neither the heap nor the random source. *)
Theorem FirstMove_search_least s board b args :
  heap s !! board = Some (OBoard b) ->
  legal_moves (position b) <> [] ->
  exists m,
    FirstMove_search board args s
    = (Ok (mkPlayResult (Some m) None false), s) /\
    m ∈ legal_moves (position b) /\
    (forall m', m' ∈ legal_moves (position b) -> key_le uci m m').
Proof.
  intros H Hne. rewrite (FirstMove_search_outcome s board b args H).
  destruct (sort_by _ _) as [|m l'] eqn:E.
  - now apply sort_by_nil in E.
  - exists m. split; [reflexivity|]. now apply sort_by_head in E.
Qed.

(** *** [ComboEngine] against the other engines and its arguments *)


(** X12: a result of [ComboEngine.search] carries a move, no ponder
    move, and as its draw flag the [draw_offered] it was called with. *)
Theorem ComboEngine_search_echoes_draw s board b time_limit ponder0
    draw root_moves res :
  heap s !! board = Some (OBoard b) ->
  root_moves_ok s root_moves ->
  (ComboEngine_search board time_limit ponder0 draw root_moves s).1
  = Ok res ->
  draw_offered res = draw /\ ponder res = None /\
  exists m, move res = Some m.
Proof.
  intros H Hok.
  rewrite (ComboEngine_search_outcome s board b time_limit ponder0
             draw root_moves H Hok).
  destruct (generous _ _).
  - destruct (candidates s b root_moves !! _) as [m|]; [|discriminate].
    intros E. injection E as E. subst res. simpl. eauto.
  - destruct (sort_by uci (candidates s b root_moves)) as [|m l'];
      [discriminate|].
    intros E. injection E as E. subst res. simpl. eauto.
Qed.

(** X13: given a list of root moves, [ComboEngine.search] does not
    consult the position beyond the side to move: on two boards with the
    same side to move it has the same outcome, so a root move is played
    whether or not it is legal. *)
Theorem ComboEngine_search_ignores_position s board b board' b'
    time_limit ponder draw_offered r (l : list Move) :
  heap s !! board = Some (OBoard b) ->
  heap s !! board' = Some (OBoard b') ->
  heap s !! r = Some (OList l) ->
  turn (position b) = turn (position b') ->
  (ComboEngine_search board time_limit ponder draw_offered (RList r) s).1
  = (ComboEngine_search board' time_limit ponder draw_offered
       (RList r) s).1.
Proof.
  intros H H' Hr Hturn.
  assert (Hok : root_moves_ok s (RList r)) by (now exists l).
  rewrite (ComboEngine_search_outcome s board b time_limit ponder
             draw_offered (RList r) H Hok).
  rewrite (ComboEngine_search_outcome s board' b' time_limit ponder
             draw_offered (RList r) H' Hok).
  simpl. now rewrite Hturn.
Qed.



(** X15: given no list of root moves, [ComboEngine.search] leaves every
    object that was on the heap as it was: the list it chooses from, and
    may sort, is a new object holding the legal moves. *)
Theorem ComboEngine_search_own_list s board b time_limit ponder
    draw_offered :
  heap s !! board = Some (OBoard b) ->
  exists l',
    heap (ComboEngine_search board time_limit ponder draw_offered
            RNotList s).2 = heap s ++ [OList l'] /\
    l' ≡ₚ legal_moves (position b).
Proof.
  intros H. pose proof (lookup_lt_Some _ _ _ H) as Hlt.
  rewrite (ComboEngine_search_unrestricted _ _ _ _ _ _ H).
  set (s1 := mkState _ _).
  assert (H1 : heap s1 !! board = Some (OBoard b)).
  { simpl. now rewrite lookup_app_l. }
  assert (Hr : heap s1 !! length (heap s)
               = Some (OList (legal_moves (position b)))).
  { simpl. now apply list_lookup_middle. }
  destruct (generous (clock_of time_limit (turn (position b))).1
                     (clock_of time_limit (turn (position b))).2) eqn:Hg.
  - destruct (ComboEngine_search_random s1 board b time_limit ponder
                draw_offered _ _ H1 Hr Hg) as [_ E].
    rewrite E. now exists (legal_moves (position b)).
  - rewrite (ComboEngine_search_sorted s1 board b time_limit ponder
               draw_offered _ _ H1 Hr Hg).
    exists (sort_by uci (legal_moves (position b))). simpl.
    split; [|apply sort_by_perm].
    rewrite insert_app_r_alt by lia.
    now rewrite Nat.sub_diag.
Qed.

(** *** [ComboEngine] and the clock *)

Lemma ComboEngine_search_clock s board b time_limit time_limit' ponder
    draw_offered root_moves :
  heap s !! board = Some (OBoard b) ->
  clock_of time_limit (turn (position b))
  = clock_of time_limit' (turn (position b)) ->
  ComboEngine_search board time_limit ponder draw_offered root_moves s
  = ComboEngine_search board time_limit' ponder draw_offered root_moves s.
Proof.
  intros H Hc. unfold ComboEngine_search.
  rewrite (bind_ok _ _ _ _ _ (my_clock_ok _ _ _ time_limit H)).
  rewrite (bind_ok _ _ _ _ _ (my_clock_ok _ _ _ time_limit' H)).
  now rewrite Hc.
Qed.


(** X17: [ComboEngine.search] reads the clock of the side to move only:
    two limits with the same [int] as [time], or with no [int] as
    [time] and the same clock and increment for the side to move, give
    the same outcome and the same final state. *)
Theorem ComboEngine_search_own_clock s board b time_limit time_limit'
    ponder draw_offered root_moves :
  heap s !! board = Some (OBoard b) ->
  time time_limit = time time_limit' ->
  (time time_limit = FOther ->
   if turn (position b)
   then white_clock time_limit = white_clock time_limit' /\
        white_inc time_limit = white_inc time_limit'
   else black_clock time_limit = black_clock time_limit' /\
        black_inc time_limit = black_inc time_limit') ->
  ComboEngine_search board time_limit ponder draw_offered root_moves s
  = ComboEngine_search board time_limit' ponder draw_offered root_moves s.
Proof.
  intros H Ht Hside.
  apply ComboEngine_search_clock with b; [exact H|].
  unfold clock_of. rewrite <- Ht.
  destruct (time time_limit) as [z|]; [reflexivity|].
  specialize (Hside eq_refl).
  destruct (turn (position b)); destruct Hside as [-> ->]; reflexivity.
Qed.

End SearchFacts.

(** ** The engines on concrete positions *)

Section Examples.
Import Tree.
Local Open Scope nat_scope.

(** C1 (not met by the code): in the king and pawn ending
    White's only legal move is [a1a2], and [Sciasa.search] at its
    default depth returns [c2d3], Black's first reply, which is not a
    legal move of the root position. *)
Theorem Sciasa_search_returns_reply_move :
  legal_moves kp_root = ["a1a2"] /\
  (Sciasa_search 0 [] (fresh kp_root)).1
  = Ok (mkPlayResult (Some "c2d3") None false) /\
  "c2d3" ∉ legal_moves kp_root.
Proof.
  split; [reflexivity|]. split; [vm_compute; reflexivity|].
  intros H%list_elem_of_singleton. discriminate.
Qed.

(** C2 (not met by the code): expanding the root of the
    king and pawn ending queues the position after [a1a2] with leading
    move [a1a2]; expanding that depth-1 node queues seven items that
    each carry the move just played and not [a1a2]; and the loop run
    from the depth-1 node ends with best move [c2d3]. *)
Theorem Sciasa_expand_records_last_move :
  expand 1 0 (legal_moves kp_root) []
         (mkState [board_at kp_root; board_at kp_root] [])
  = (Ok [(2, 1%Z, Some "a1a2")], kp_first_ply) /\
  (expand 2 1 (legal_moves kp_after_a1a2) [] kp_first_ply).1
  = Ok [(3, 2%Z, Some "c2d3"); (4, 2%Z, Some "c2c3");
        (5, 2%Z, Some "c2d2"); (6, 2%Z, Some "c2d1");
        (7, 2%Z, Some "c2c1"); (8, 2%Z, Some "h7h6");
        (9, 2%Z, Some "h7h5")] /\
  (bfs 9 0 2 [(2, 1%Z, Some "a1a2")] None NegInf kp_first_ply).1
  = Ok (Some "c2d3").
Proof. repeat split; vm_compute; reflexivity. Qed.


(** C9: there is a root position with a legal move, every legal move
    of which leads to a position without legal moves, on which
    [Sciasa.search] at its default depth returns a result whose move
    is [None]. *)
Theorem Sciasa_search_can_return_none :
  exists p : GamePos,
    legal_moves p <> [] /\
    (forall m, m ∈ legal_moves p -> legal_moves (apply_move p m) = []) /\
    (Sciasa_search 0 [] (fresh p)).1 = Ok (mkPlayResult None None false).
Proof.
  exists stalemate_root. split; [discriminate|].
  assert (Hdead : forall m, m ∈ legal_moves stalemate_root ->
                            legal_moves (apply_move stalemate_root m) = []).
  { intros m Hm%list_elem_of_singleton. now subst m. }
  split; [exact Hdead|].
  now apply (Sciasa_search_dead_end (fresh stalemate_root) 0
               (mkBoard stalemate_root [])).
Qed.

(** *** The general theorems at concrete inputs *)





(** C7 on the root of the forced stalemate: a pawn against a queen. *)
Lemma evaluate_board_material_witness :
  heap (fresh stalemate_root) !! 0 = Some (board_at stalemate_root) /\
  evaluate_board 0 (fresh stalemate_root)
  = (Ok (-8)%Z, fresh stalemate_root).
Proof.
  assert (H : heap (fresh stalemate_root) !! 0
              = Some (board_at stalemate_root)) by reflexivity.
  split; [exact H|].
  destruct (evaluate_board_material (fresh stalemate_root) 0
              (mkBoard stalemate_root []) H) as [E _].
  rewrite E. reflexivity.
Defined.

(** C8 on the king and pawn ending. *)
Lemma search_leaves_board_unchanged_witness :
  heap (fresh kp_root) !! 0 = Some (board_at kp_root) /\
  heap (Sciasa_search 0 [] (fresh kp_root)).2 !! 0
  = Some (board_at kp_root).
Proof.
  assert (H : heap (fresh kp_root) !! 0 = Some (board_at kp_root))
    by reflexivity.
  split; [exact H|].
  destruct (search_leaves_board_unchanged (fresh kp_root) 0
              (mkBoard kp_root []) [] H) as (_ & E & _).
  exact E.
Defined.


End Examples.

(** ** Further theorems at concrete inputs *)

Section MoreExamples.
Import Tree.
Local Open Scope nat_scope.

(** X1 on the king and pawn ending at the default depth: all seven
    frontier nodes evaluate alike, and the first is chosen. *)
Lemma Sciasa_search_first_best_witness :
  heap (fresh kp_root) !! 0 = Some (board_at kp_root) /\
  frontier (Z.to_nat (depth_of [])) kp_root None <> [] /\
  exists i p lm,
    frontier (Z.to_nat (depth_of [])) kp_root None !! i = Some (p, lm) /\
    (Sciasa_search 0 [] (fresh kp_root)).1
    = Ok (mkPlayResult lm None false).
Proof.
  assert (H : heap (fresh kp_root) !! 0 = Some (board_at kp_root))
    by reflexivity.
  assert (Hne : frontier (Z.to_nat (depth_of [])) kp_root None <> [])
    by discriminate.
  split; [exact H|]. split; [exact Hne|].
  destruct (Sciasa_search_first_best (fresh kp_root) 0
              (mkBoard kp_root []) [] H Hne) as (i & p & lm & Hi & E & _).
  exists i, p, lm. split; [exact Hi|exact E].
Defined.

(** X2 on the forced stalemate: no line of two plies. *)
Lemma Sciasa_search_none_iff_witness :
  heap (fresh stalemate_root) !! 0 = Some (board_at stalemate_root) /\
  exists best_move,
    (Sciasa_search 0 [] (fresh stalemate_root)).1
    = Ok (mkPlayResult best_move None false) /\
    (best_move = None
     <-> (depth_of [] <= 0)%Z \/
         frontier (Z.to_nat (depth_of [])) stalemate_root None = []).
Proof.
  assert (H : heap (fresh stalemate_root) !! 0
              = Some (board_at stalemate_root)) by reflexivity.
  split; [exact H|].
  exact (Sciasa_search_none_iff (fresh stalemate_root) 0
           (mkBoard stalemate_root []) [] H).
Defined.

(** X3 for Black after [a1a2]: seven moves, none changes the material,
    the first is returned. *)
Lemma Sciasa_search_depth_one_best_witness :
  heap (fresh kp_after_a1a2) !! 0 = Some (board_at kp_after_a1a2) /\
  legal_moves kp_after_a1a2 <> [] /\
  exists i m,
    legal_moves kp_after_a1a2 !! i = Some m /\
    (Sciasa_search 0 [AInt 1] (fresh kp_after_a1a2)).1
    = Ok (mkPlayResult (Some m) None false).
Proof.
  assert (H : heap (fresh kp_after_a1a2) !! 0
              = Some (board_at kp_after_a1a2)) by reflexivity.
  assert (Hne : legal_moves kp_after_a1a2 <> []) by discriminate.
  split; [exact H|]. split; [exact Hne|].
  destruct (Sciasa_search_depth_one_best (fresh kp_after_a1a2) 0
              (mkBoard kp_after_a1a2 []) [] H Hne)
    as (i & m & Hi & E & _).
  exists i, m. split; [exact Hi|exact E].
Defined.

(** X4 on the king and pawn ending: the one move. *)
Lemma Sciasa_search_single_move_witness :
  heap (fresh kp_root) !! 0 = Some (board_at kp_root) /\
  legal_moves kp_root = ["a1a2"] /\
  (Sciasa_search 0 [AInt 1] (fresh kp_root)).1
  = Ok (mkPlayResult (Some "a1a2") None false).
Proof.
  assert (H : heap (fresh kp_root) !! 0 = Some (board_at kp_root))
    by reflexivity.
  assert (Hone : legal_moves kp_root = ["a1a2"]) by reflexivity.
  split; [exact H|]. split; [exact Hone|].
  exact (Sciasa_search_single_move (fresh kp_root) 0 (mkBoard kp_root [])
           [] "a1a2" H Hone).
Defined.

(** X5 at the depth-1 node of the king and pawn ending. *)
Lemma expand_queues_children_witness :
  heap kp_first_ply !! 2
  = Some (OBoard (push_board (mkBoard kp_root []) "a1a2")) /\
  exists q',
    (expand 2 1 (legal_moves kp_after_a1a2) [] kp_first_ply).1
    = Ok ([] ++ q') /\
    length q' = 7.
Proof.
  assert (H : heap kp_first_ply !! 2
              = Some (OBoard (push_board (mkBoard kp_root []) "a1a2")))
    by reflexivity.
  split; [exact H|].
  destruct (expand_queues_children kp_first_ply 2
              (push_board (mkBoard kp_root []) "a1a2") 1
              (legal_moves kp_after_a1a2) [] H) as (q' & E & Hlen & _).
  exists q'. split; [exact E|exact Hlen].
Defined.

(** X6 on the stalemate and its mirror. *)
Lemma evaluate_board_mirror_witness :
  heap (fresh stalemate_after_a6b6) !! 0
  = Some (board_at stalemate_after_a6b6) /\
  heap (fresh stalemate_mirrored) !! 0
  = Some (board_at stalemate_mirrored) /\
  (forall pt,
      count stalemate_mirrored pt WHITE
      = count stalemate_after_a6b6 pt BLACK /\
      count stalemate_mirrored pt BLACK
      = count stalemate_after_a6b6 pt WHITE) /\
  exists v,
    (evaluate_board 0 (fresh stalemate_after_a6b6)).1 = Ok v /\
    (evaluate_board 0 (fresh stalemate_mirrored)).1 = Ok (- v)%Z.
Proof.
  assert (H : heap (fresh stalemate_after_a6b6) !! 0
              = Some (board_at stalemate_after_a6b6)) by reflexivity.
  assert (H' : heap (fresh stalemate_mirrored) !! 0
               = Some (board_at stalemate_mirrored)) by reflexivity.
  assert (Hm : forall pt,
             count stalemate_mirrored pt WHITE
             = count stalemate_after_a6b6 pt BLACK /\
             count stalemate_mirrored pt BLACK
             = count stalemate_after_a6b6 pt WHITE)
    by (intros []; split; reflexivity).
  split; [exact H|]. split; [exact H'|]. split; [exact Hm|].
  exact (evaluate_board_mirror (fresh stalemate_after_a6b6) 0
           (mkBoard stalemate_after_a6b6 [])
           (fresh stalemate_mirrored) 0 (mkBoard stalemate_mirrored [])
           H H' Hm).
Defined.

(** X7: the root of the forced stalemate has one black queen more than
    the position after [a6b6]. *)
Lemma evaluate_board_extra_piece_witness :
  heap (fresh stalemate_after_a6b6) !! 0
  = Some (board_at stalemate_after_a6b6) /\
  heap (fresh stalemate_root) !! 0 = Some (board_at stalemate_root) /\
  count stalemate_root QUEEN BLACK
  = (count stalemate_after_a6b6 QUEEN BLACK + 1)%Z /\
  exists v,
    (evaluate_board 0 (fresh stalemate_after_a6b6)).1 = Ok v /\
    (evaluate_board 0 (fresh stalemate_root)).1 = Ok (v + - 9)%Z.
Proof.
  assert (H : heap (fresh stalemate_after_a6b6) !! 0
              = Some (board_at stalemate_after_a6b6)) by reflexivity.
  assert (H' : heap (fresh stalemate_root) !! 0
               = Some (board_at stalemate_root)) by reflexivity.
  assert (Hone : count stalemate_root QUEEN BLACK
                 = (count stalemate_after_a6b6 QUEEN BLACK + 1)%Z)
    by reflexivity.
  assert (Hsame : forall pt' c',
             (pt', c') <> (QUEEN, BLACK) ->
             count stalemate_root pt' c'
             = count stalemate_after_a6b6 pt' c').
  { intros [] [] Hneq; try reflexivity. now destruct Hneq. }
  split; [exact H|]. split; [exact H'|]. split; [exact Hone|].
  exact (evaluate_board_extra_piece (fresh stalemate_after_a6b6) 0
           (mkBoard stalemate_after_a6b6 [])
           (fresh stalemate_root) 0 (mkBoard stalemate_root [])
           QUEEN BLACK H H' Hone Hsame).
Defined.

(** X8 with 12 drawn among seven moves: the sixth. *)
Lemma RandomMove_search_draw_witness :
  heap with_tape !! 0 = Some (board_at kp_after_a1a2) /\
  legal_moves kp_after_a1a2 <> [] /\
  rng with_tape = [12; 3] /\
  exists m,
    legal_moves kp_after_a1a2 !! (12 mod length (legal_moves kp_after_a1a2))
    = Some m /\
    RandomMove_search 0 [] with_tape
    = (Ok (mkPlayResult (Some m) None false),
       mkState (heap with_tape) [3]).
Proof.
  assert (H : heap with_tape !! 0 = Some (board_at kp_after_a1a2))
    by reflexivity.
  assert (Hne : legal_moves kp_after_a1a2 <> []) by discriminate.
  assert (Hrng : rng with_tape = [12; 3]) by reflexivity.
  split; [exact H|]. split; [exact Hne|]. split; [exact Hrng|].
  destruct (RandomMove_search_draw with_tape 0 (mkBoard kp_after_a1a2 [])
              [] 12 [3] H Hne Hrng) as [E _].
  exact E.
Defined.

(** X9 for Black after [a1a2]. *)
Lemma Alphabetical_search_least_witness :
  heap (fresh kp_after_a1a2) !! 0 = Some (board_at kp_after_a1a2) /\
  legal_moves kp_after_a1a2 <> [] /\
  exists m,
    Alphabetical_search 0 [] (fresh kp_after_a1a2)
    = (Ok (mkPlayResult (Some m) None false), fresh kp_after_a1a2) /\
    m ∈ legal_moves kp_after_a1a2.
Proof.
  assert (H : heap (fresh kp_after_a1a2) !! 0
              = Some (board_at kp_after_a1a2)) by reflexivity.
  assert (Hne : legal_moves kp_after_a1a2 <> []) by discriminate.
  split; [exact H|]. split; [exact Hne|].
  destruct (Alphabetical_search_least (fresh kp_after_a1a2) 0
              (mkBoard kp_after_a1a2 []) [] H Hne) as (m & E & Hm & _).
  exists m. split; [exact E|exact Hm].
Defined.

(** X10 for Black after [a1a2]. *)
Lemma FirstMove_search_least_witness :
  heap (fresh kp_after_a1a2) !! 0 = Some (board_at kp_after_a1a2) /\
  legal_moves kp_after_a1a2 <> [] /\
  exists m,
    FirstMove_search 0 [] (fresh kp_after_a1a2)
    = (Ok (mkPlayResult (Some m) None false), fresh kp_after_a1a2) /\
    m ∈ legal_moves kp_after_a1a2.
Proof.
  assert (H : heap (fresh kp_after_a1a2) !! 0
              = Some (board_at kp_after_a1a2)) by reflexivity.
  assert (Hne : legal_moves kp_after_a1a2 <> []) by discriminate.
  split; [exact H|]. split; [exact Hne|].
  destruct (FirstMove_search_least (fresh kp_after_a1a2) 0
              (mkBoard kp_after_a1a2 []) [] H Hne) as (m & E & Hm & _).
  exists m. split; [exact E|exact Hm].
Defined.


(** X12 on the three root moves with a draw offered. *)
Lemma ComboEngine_search_echoes_draw_witness :
  heap restricted !! 0 = Some (board_at kp_after_a1a2) /\
  root_moves_ok restricted (RList 1) /\
  (ComboEngine_search 0 limit_300 false true (RList 1) restricted).1
  = Ok (mkPlayResult (Some "c2c1") None true) /\
  draw_offered (mkPlayResult (Some "c2c1") None true) = true.
Proof.
  assert (H : heap restricted !! 0 = Some (board_at kp_after_a1a2))
    by reflexivity.
  assert (Hok : root_moves_ok restricted (RList 1))
    by (exists ["h7h5"; "c2d3"; "c2c1"]; reflexivity).
  assert (E : (ComboEngine_search 0 limit_300 false true (RList 1)
                 restricted).1
              = Ok (mkPlayResult (Some "c2c1") None true))
    by reflexivity.
  split; [exact H|]. split; [exact Hok|]. split; [exact E|].
  destruct (ComboEngine_search_echoes_draw restricted 0
              (mkBoard kp_after_a1a2 []) limit_300 false true (RList 1)
              (mkPlayResult (Some "c2c1") None true) H Hok E) as [Hd _].
  exact Hd.
Defined.

(** X13: the same root moves on the stalemated board. *)
Lemma ComboEngine_search_ignores_position_witness :
  heap two_boards !! 0 = Some (board_at kp_after_a1a2) /\
  heap two_boards !! 1 = Some (board_at stalemate_after_a6b6) /\
  heap two_boards !! 2 = Some (OList ["h7h5"; "c2d3"; "c2c1"]) /\
  turn kp_after_a1a2 = turn stalemate_after_a6b6 /\
  (ComboEngine_search 0 limit_300 false false (RList 2) two_boards).1
  = (ComboEngine_search 1 limit_300 false false (RList 2) two_boards).1.
Proof.
  assert (H : heap two_boards !! 0 = Some (board_at kp_after_a1a2))
    by reflexivity.
  assert (H' : heap two_boards !! 1 = Some (board_at stalemate_after_a6b6))
    by reflexivity.
  assert (Hr : heap two_boards !! 2
               = Some (OList ["h7h5"; "c2d3"; "c2c1"])) by reflexivity.
  assert (Ht : turn kp_after_a1a2 = turn stalemate_after_a6b6)
    by reflexivity.
  split; [exact H|]. split; [exact H'|]. split; [exact Hr|].
  split; [exact Ht|].
  exact (ComboEngine_search_ignores_position two_boards 0
           (mkBoard kp_after_a1a2 []) 1 (mkBoard stalemate_after_a6b6 [])
           limit_300 false false 2 ["h7h5"; "c2d3"; "c2c1"] H H' Hr Ht).
Defined.


(** X15 with 300 seconds: the sorted list is a new object. *)
Lemma ComboEngine_search_own_list_witness :
  heap with_tape !! 0 = Some (board_at kp_after_a1a2) /\
  exists l',
    heap (ComboEngine_search 0 limit_300 false false RNotList with_tape).2
    = heap with_tape ++ [OList l'] /\
    l' ≡ₚ legal_moves kp_after_a1a2.
Proof.
  assert (H : heap with_tape !! 0 = Some (board_at kp_after_a1a2))
    by reflexivity.
  split; [exact H|].
  exact (ComboEngine_search_own_list with_tape 0
           (mkBoard kp_after_a1a2 []) limit_300 false false H).
Defined.


(** X17 for Black to move: White's clock makes no difference. *)
Lemma ComboEngine_search_own_clock_witness :
  heap restricted !! 0 = Some (board_at kp_after_a1a2) /\
  time limit_black_900 = time limit_black_900' /\
  (black_clock limit_black_900 = black_clock limit_black_900' /\
   black_inc limit_black_900 = black_inc limit_black_900') /\
  ComboEngine_search 0 limit_black_900 false false (RList 1) restricted
  = ComboEngine_search 0 limit_black_900' false false (RList 1) restricted.
Proof.
  assert (H : heap restricted !! 0 = Some (board_at kp_after_a1a2))
    by reflexivity.
  assert (Ht : time limit_black_900 = time limit_black_900')
    by reflexivity.
  assert (Hs : black_clock limit_black_900 = black_clock limit_black_900'
               /\ black_inc limit_black_900 = black_inc limit_black_900')
    by (split; reflexivity).
  split; [exact H|]. split; [exact Ht|]. split; [exact Hs|].
  exact (ComboEngine_search_own_clock restricted 0
           (mkBoard kp_after_a1a2 []) limit_black_900 limit_black_900'
           false false (RList 1) H Ht (fun _ => Hs)).
Defined.

End MoreExamples.
